(** * gfal2-sdn: the SDN event listener of [src/gfal_sdn.c]

    A shallow embedding of the plugin's event listener and of the library
    calls it makes, followed by the properties of the pair parser, the size
    pass, the passive-mode descriptor parser and the dispatcher.

    Conventions.
    - A [const char*] that cannot be NULL is a [string]: the characters
      before the terminating NUL.  A [char*] that may be NULL is an
      [option string].
    - A C operation whose behaviour the language leaves undefined (reading
      through a NULL pointer, indexing past the end of an array) yields
      [Undefined]; everything after it is lost.
    - [gfal2_log (level, format, args...)] appends one entry, holding the
      level and the format with its arguments, to the log, and returns,
      whatever the level.
    - The calls into GLib, the C library, the POSIX regex library and gfal2
      follow the documentation of those libraries; gfal2's metadata query
      and URI parser are parameters of the plugin. *)

From Stdlib Require Import ZArith String Ascii List Bool Lia Permutation.
Import ListNotations.

Open Scope string_scope.

(* ================================================================== *)
(** * C: outcomes, integers, [atoi]                                     *)
(* ================================================================== *)

Module C.

(** The undefined behaviours this program can reach. *)
Inductive undefined_behaviour : Set :=
| NullDereference      (* [p->field] with [p == NULL] *)
| ReadPastVectorEnd    (* [v[i]] beyond the NULL that terminates [v] *)
| WritePastArrayEnd.   (* a store beyond [sizeof] of a [char] array *)

Inductive outcome (A : Type) : Type :=
| Returns (a : A)
| Undefined (ub : undefined_behaviour).

Arguments Returns {A} a.
Arguments Undefined {A} ub.

Definition bind {A B : Type} (m : outcome A) (k : A -> outcome B) : outcome B :=
  match m with
  | Returns a => k a
  | Undefined ub => Undefined ub
  end.

Definition returns {A : Type} (m : outcome A) : bool :=
  match m with
  | Returns _ => true
  | Undefined _ => false
  end.

(** [off_t] and [long] are 64 bits wide and [int] is 32 bits wide (LP64
    Linux, the platform gfal2 is built for).  Signed arithmetic that
    leaves the range keeps the low bits, as the target's two's-complement
    addition does. *)
Definition wrap_signed (bits : Z) (z : Z) : Z :=
  ((z + 2 ^ (bits - 1)) mod 2 ^ bits - 2 ^ (bits - 1))%Z.

Definition OFF_T_MAX : Z := (2 ^ 63 - 1)%Z.
Definition OFF_T_MIN : Z := (- 2 ^ 63)%Z.
Definition off_t_wrap (z : Z) : Z := wrap_signed 64 z.

Definition INT_MAX : Z := (2 ^ 31 - 1)%Z.
Definition LONG_MAX : Z := (2 ^ 63 - 1)%Z.
Definition LONG_MIN : Z := (- 2 ^ 63)%Z.

(** Character classes of the C locale. *)
Definition in_range (lo hi c : ascii) : bool :=
  let n := nat_of_ascii c in
  Nat.leb (nat_of_ascii lo) n && Nat.leb n (nat_of_ascii hi).

Definition isdigit (c : ascii) : bool := in_range "0" "9" c.

Definition isspace (c : ascii) : bool :=
  let n := nat_of_ascii c in
  Nat.eqb n 32 || (Nat.leb 9 n && Nat.leb n 13).

Definition digit_value (c : ascii) : Z :=
  Z.of_nat (nat_of_ascii c - nat_of_ascii "0").

(** [strtol (nptr, NULL, 10)]: skip white space, read an optional sign
    and the longest run of decimal digits, clamp to the range of [long]. *)
Fixpoint skip_spaces (s : string) : string :=
  match s with
  | String c s' => if isspace c then skip_spaces s' else s
  | EmptyString => s
  end.

Fixpoint read_digits (acc : Z) (s : string) : Z :=
  match s with
  | String c s' =>
      if isdigit c then read_digits (10 * acc + digit_value c)%Z s' else acc
  | EmptyString => acc
  end.

Definition clamp_long (z : Z) : Z :=
  if (z >? LONG_MAX)%Z then LONG_MAX
  else if (z <? LONG_MIN)%Z then LONG_MIN
  else z.

Definition strtol10 (nptr : string) : Z :=
  match skip_spaces nptr with
  | String "-" s => clamp_long (- read_digits 0 s)
  | String "+" s => clamp_long (read_digits 0 s)
  | s => clamp_long (read_digits 0 s)
  end.

(** [atoi (nptr)] is [(int) strtol (nptr, NULL, 10)]. *)
Definition atoi (nptr : string) : Z := wrap_signed 32 (strtol10 nptr).

(** [s + n]: the string that starts [n] characters into [s]. *)
Fixpoint offset (s : string) (n : nat) {struct n} : string :=
  match n, s with
  | O, _ => s
  | S n', String _ s' => offset s' n'
  | S _, EmptyString => EmptyString
  end.

(** The first [n] characters of [s]. *)
Fixpoint first_chars (n : nat) (s : string) {struct n} : string :=
  match n, s with
  | S n', String c s' => String c (first_chars n' s')
  | _, _ => EmptyString
  end.

(** [strstr (haystack, needle)], as the offset of the first occurrence. *)
Fixpoint strstr (haystack needle : string) : option nat :=
  if prefix needle haystack then Some O
  else match haystack with
       | String _ h' => option_map S (strstr h' needle)
       | EmptyString => None
       end.

End C.

Export C.

Declare Scope outcome_scope.
Delimit Scope outcome_scope with outcome.
Notation "x <- m ;; k" := (C.bind m (fun x => k))
  (at level 61, m at next level, right associativity) : outcome_scope.
Open Scope outcome_scope.

(* ================================================================== *)
(** * GLib: strings, string vectors, sequences                          *)
(* ================================================================== *)

Module GLib.

(** [g_strdup (str)]: a copy of [str], NULL when [str] is NULL. *)
Definition g_strdup (str : option string) : option string := str.

Definition G_MAXINT : Z := (2 ^ 31 - 1)%Z.

(** The loop of [g_strsplit]:
    [s = strstr (remainder, delimiter);
     while (--max_tokens && s) { add the text before s; step over the
     delimiter; s = strstr (remainder, delimiter); }
     add remainder]. *)
Fixpoint g_strsplit_tokens (max_tokens : nat) (remainder delimiter : string)
  : list string :=
  match strstr remainder delimiter, max_tokens with
  | Some i, S (S _ as left) =>
      first_chars i remainder
        :: g_strsplit_tokens left
             (offset remainder (i + String.length delimiter)) delimiter
  | _, _ => [remainder]
  end.

(** [g_strsplit (string, delimiter, max_tokens)]: the vector of tokens,
    without the NULL that terminates it.  A [max_tokens] below 1 means no
    limit; splitting the empty string gives the empty vector. *)
Definition g_strsplit (str delimiter : string) (max_tokens : Z) : list string :=
  match str with
  | EmptyString => []
  | _ =>
      g_strsplit_tokens
        (Z.to_nat (if (max_tokens <? 1)%Z then G_MAXINT else max_tokens))
        str delimiter
  end.

(** [v[i]] on a NULL-terminated vector: an element, the terminating NULL
    at index [length v], nothing defined beyond it. *)
Definition strv_index (v : list string) (i : nat) : outcome (option string) :=
  if Nat.ltb i (List.length v) then Returns (nth_error v i)
  else if Nat.eqb i (List.length v) then Returns None
  else Undefined ReadPastVectorEnd.

(** A [GSequence] holds its elements in order; an iterator is a position,
    the end iterator being the position after the last element. *)
Definition GSequence (A : Type) : Type := list A.
Definition GSequenceIter : Type := nat.

Definition g_sequence_new {A : Type} : GSequence A := [].

(** Never NULL for a sequence that exists; on an empty sequence it is the
    end iterator. *)
Definition g_sequence_get_begin_iter {A : Type} (seq : GSequence A)
  : option GSequenceIter := Some O.

Definition g_sequence_get_end_iter {A : Type} (seq : GSequence A)
  : option GSequenceIter := Some (List.length seq).

(** [g_sequence_get (iter)]: the element at [iter]; at the end iterator
    the check [g_return_val_if_fail (!is_end (iter), NULL)] returns NULL. *)
Definition g_sequence_get {A : Type} (seq : GSequence A) (iter : GSequenceIter)
  : option A := nth_error seq iter.

Definition g_sequence_append {A : Type} (seq : GSequence A) (data : A)
  : GSequence A := (seq ++ [data])%list.

(** [g_sequence_remove_range (begin, end)] removes the positions
    [begin .. end - 1]. *)
Definition g_sequence_remove_range {A : Type} (seq : GSequence A)
  (begin_ end_ : GSequenceIter) : GSequence A :=
  (firstn begin_ seq ++ skipn end_ seq)%list.

(** The number of elements, a [gint]; a sequence in memory holds fewer
    than 2^31 of them. *)
Definition g_sequence_get_length {A : Type} (seq : GSequence A) : Z :=
  Z.of_nat (List.length seq).

(** [g_sequence_foreach (seq, func, user_data)]: [func] on every element,
    first to last, threading what [func] changes. *)
Definition g_sequence_foreach {A S : Type} (seq : GSequence A)
  (func : A -> S -> S) (user_data : S) : S :=
  fold_left (fun st a => func a st) seq user_data.

Definition NUL : ascii := zero.

(** [g_strlcpy (dest, src, dest_size)] stores at most [dest_size - 1]
    characters of [src] and then a NUL, from [dest[0]] on; with
    [dest_size = 0] it stores nothing.  These are the bytes stored. *)
Definition g_strlcpy_stores (src : string) (dest_size : nat) : list ascii :=
  match dest_size with
  | O => []
  | S room => (list_ascii_of_string (first_chars room src) ++ [NUL])%list
  end.

(** The string a [char] array holds: its bytes before the first NUL. *)
Fixpoint c_string_of (bytes : list ascii) : string :=
  match bytes with
  | [] => EmptyString
  | b :: bytes' =>
      if Ascii.eqb b NUL then EmptyString else String b (c_string_of bytes')
  end.

(** Storing [bytes] from index 0 into a [char] array of [sizeof_dest]
    bytes, then reading the array as a string. *)
Definition store_chars (sizeof_dest : nat) (bytes : list ascii) : outcome string :=
  if Nat.leb (List.length bytes) sizeof_dest then Returns (c_string_of bytes)
  else Undefined WritePastArrayEnd.

End GLib.

Export GLib.

(* ================================================================== *)
(** * POSIX regex: [regexec] on the pattern of [sdn_dest_pasv]          *)
(* ================================================================== *)

Module Regex.

Record regmatch_t : Set := { rm_so : nat; rm_eo : nat }.

(** The three bracket expressions of
    [([a-zA-Z0-9._-]+):\[([0-9a-f.:]+)\]:([0-9]+)]. *)
Definition host_class (c : ascii) : bool :=
  in_range "a" "z" c || in_range "A" "Z" c || in_range "0" "9" c
  || Ascii.eqb c "." || Ascii.eqb c "_" || Ascii.eqb c "-".

Definition ip_class (c : ascii) : bool :=
  in_range "0" "9" c || in_range "a" "f" c
  || Ascii.eqb c "." || Ascii.eqb c ":".

Definition port_class (c : ascii) : bool := in_range "0" "9" c.

(** Length of the longest prefix of [s] made of characters of [cls]. *)
Fixpoint span (cls : ascii -> bool) (s : string) : nat :=
  match s with
  | String c s' => if cls c then S (span cls s') else O
  | EmptyString => O
  end.

(** A match of the whole pattern that starts at the head of [s]: the
    lengths of the three parenthesised groups.  Every bracket expression
    is followed by a character outside it (or ends the pattern), so the
    longest run is the only candidate for a group. *)
Definition match_here (s : string) : option (nat * nat * nat) :=
  let h := span host_class s in
  let s1 := offset s h in
  let i := span ip_class (offset s1 2) in
  let s2 := offset (offset s1 2) i in
  let p := span port_class (offset s2 2) in
  if Nat.ltb 0 h && prefix ":[" s1 && Nat.ltb 0 i && prefix "]:" s2 && Nat.ltb 0 p
  then Some (h, i, p)
  else None.

(** [matches[0 .. 3]] of a match that starts at offset [so] with groups
    of [h], [i] and [p] characters: the whole match, then the groups. *)
Definition group_offsets (so h i p : nat) : list regmatch_t :=
  [ {| rm_so := so;                 rm_eo := so + h + 2 + i + 2 + p |};
    {| rm_so := so;                 rm_eo := so + h |};
    {| rm_so := so + h + 2;         rm_eo := so + h + 2 + i |};
    {| rm_so := so + h + 2 + i + 2; rm_eo := so + h + 2 + i + 2 + p |} ].

(** The leftmost start at which the pattern matches, tried from [so] on. *)
Fixpoint regexec_from (so : nat) (s : string) : option (list regmatch_t) :=
  match match_here s with
  | Some (h, i, p) => Some (group_offsets so h i p)
  | None =>
      match s with
      | String _ s' => regexec_from (S so) s'
      | EmptyString => None
      end
  end.

(** [regexec (&regex, string, 4, matches, 0)]: [None] is [REG_NOMATCH],
    otherwise [matches[0 .. 3]]. *)
Definition regexec (str : string) : option (list regmatch_t) :=
  regexec_from 0 str.

Definition no_match : regmatch_t := {| rm_so := 0; rm_eo := 0 |}.

End Regex.

Export Regex.

(* ================================================================== *)
(** * The plugin                                                        *)
(* ================================================================== *)

Inductive GLogLevelFlags : Set :=
| G_LOG_LEVEL_ERROR
| G_LOG_LEVEL_CRITICAL
| G_LOG_LEVEL_WARNING
| G_LOG_LEVEL_MESSAGE.

(** The format strings of the plugin's [gfal2_log] calls, with their
    arguments. *)
Inductive log_format : Set :=
| Could_not_stat (source : option string) (message : string)
    (* "Could not stat %s (%s)" *)
| Between_hosts (source_host destination_host : option string)
    (files : Z) (total_size : Z)
    (* "Between %s and %s %d files with a total size of %lld bytes" *)
| Could_not_be_parsed (description : string)
    (* "The description could not be parsed: %s" *)
| Got_endpoint (ip : string) (port : Z) (host : string).
    (* "Got %s:%d for host %s" *)

Definition log_entry : Set := (GLogLevelFlags * log_format)%type.

(** Modelled from the spec: the stage tags of the engine's events.  The
    quarks [GFAL_EVENT_LIST_ENTER], [GFAL_EVENT_LIST_ITEM] and
    [GFAL_EVENT_LIST_EXIT] are declared in gfal2's headers; the listener
    compares the event's stage with them and with the quark of "PASV", and
    quarks of different names differ. *)
Inductive stage_t : Set :=
| GFAL_EVENT_LIST_ENTER
| GFAL_EVENT_LIST_ITEM
| GFAL_EVENT_LIST_EXIT
| GFAL_GRIDFTP_PASV_STAGE_QUARK
| GFAL_EVENT_OTHER (name : string).

Record gfalt_event_t : Set := { stage : stage_t; description : string }.

Record pair_t : Set := { source : option string; destination : option string }.

(** The field of gfal2's [gfal2_uri] that the plugin reads. *)
Record gfal2_uri : Set := { host : option string }.

(** What [gfal2_stat] leaves behind: a negative return with an error that
    carries a message, or [st.st_size]. *)
Inductive stat_result : Set :=
| Stat_failed (message : string)
| Stat_ok (st_size : Z).

Definition sizeof_host : nat := 256.
Definition sizeof_ip : nat := 64.

(** ** [sdn_create_pair] *)
Definition sdn_create_pair (description : string) : outcome pair_t :=
  let splitted := g_strsplit description " => " 2 in
  s0 <- strv_index splitted 0 ;;
  s1 <- strv_index splitted 1 ;;
  Returns {| source := g_strdup s0; destination := g_strdup s1 |}.

(** ** [sdn_dest_pasv] *)
Definition sdn_dest_pasv (description : string) (log : list log_entry)
  : outcome (list log_entry) :=
  match regexec description with
  | None =>
      Returns (log ++ [(G_LOG_LEVEL_CRITICAL, Could_not_be_parsed description)])%list
  | Some matches =>
      let m1 := nth 1 matches no_match in
      let m2 := nth 2 matches no_match in
      let m3 := nth 3 matches no_match in
      (* Host *)
      let len := rm_eo m1 - rm_so m1 + 1 in
      let len := if Nat.ltb sizeof_host len then sizeof_host else len in
      host <- store_chars sizeof_host
                (g_strlcpy_stores (offset description (rm_so m1)) len) ;;
      (* IP *)
      let len := rm_eo m2 - rm_so m2 + 1 in
      let len := if Nat.ltb sizeof_ip len then sizeof_ip else len in
      ip <- store_chars sizeof_ip
              (g_strlcpy_stores (offset description (rm_so m2)) len) ;;
      (* Port *)
      let port := atoi (offset description (rm_so m3)) in
      Returns (log ++ [(G_LOG_LEVEL_WARNING, Got_endpoint ip port host)])%list
  end.

Section Sdn.

(** The collaborators: gfal2's context, its metadata query and its URI
    parser.  Both take a [char*] that the plugin may hand over as NULL;
    the parser answers NULL when it fails. *)
Variable gfal2_context_t : Type.
Variable gfal2_stat : gfal2_context_t -> option string -> stat_result.
Variable gfal2_parse_uri : option string -> option gfal2_uri.

Record sdn_t : Type := {
  pairs : GSequence pair_t;
  context : gfal2_context_t;
  total_size : Z
}.

Definition with_total_size (sdn : sdn_t) (z : Z) : sdn_t :=
  {| pairs := pairs sdn; context := context sdn; total_size := z |}.

Definition with_pairs (sdn : sdn_t) (ps : GSequence pair_t) : sdn_t :=
  {| pairs := ps; context := context sdn; total_size := total_size sdn |}.

(** What the listener reads and writes: its [user_data] and the log. *)
Definition session : Type := (sdn_t * list log_entry)%type.

(** ** [sdn_create_data] *)
Definition sdn_create_data (context : gfal2_context_t) : sdn_t :=
  {| pairs := g_sequence_new; context := context; total_size := 0 |}.

(** ** [sdn_add_size] *)
Definition sdn_add_size (data : pair_t) (udata : session) : session :=
  let (sdn, log) := udata in
  match gfal2_stat (context sdn) (source data) with
  | Stat_failed message =>
      (sdn, log ++ [(G_LOG_LEVEL_ERROR, Could_not_stat (source data) message)])%list
  | Stat_ok st_size =>
      (with_total_size sdn (off_t_wrap (total_size sdn + st_size)), log)
  end.

(** The size pass of [sdn_notify_remote]:
    [data->total_size = 0; g_sequence_foreach (data->pairs, sdn_add_size, data)]. *)
Definition calculate_the_size (st : session) : session :=
  let (data, log) := st in
  g_sequence_foreach (pairs data) sdn_add_size (with_total_size data 0, log).

(** ** [sdn_notify_remote] *)
Definition sdn_notify_remote (st : session) : outcome session :=
  let (data, log) := st in
  match g_sequence_get_begin_iter (pairs data) with
  | None => Returns st
  | Some iter =>
      match g_sequence_get (pairs data) iter with
      | None => Undefined NullDereference          (* pair->source *)
      | Some first =>
          let source_uri := gfal2_parse_uri (source first) in
          let destination_uri := gfal2_parse_uri (destination first) in
          let (data', log') := calculate_the_size st in
          match source_uri, destination_uri with
          | Some src, Some dst =>
              Returns
                (data',
                 log' ++ [(G_LOG_LEVEL_WARNING,
                           Between_hosts (host src) (host dst)
                             (g_sequence_get_length (pairs data'))
                             (total_size data'))])%list
          | _, _ => Undefined NullDereference      (* source->host, destination->host *)
          end
      end
  end.

(** ** [sdn_event_listener] *)
Definition sdn_event_listener (e : gfalt_event_t) (st : session) : outcome session :=
  let (data, log) := st in
  match stage e with
  | GFAL_EVENT_LIST_ENTER =>
      match g_sequence_get_begin_iter (pairs data),
            g_sequence_get_end_iter (pairs data) with
      | Some b, Some e' =>
          Returns (with_pairs data (g_sequence_remove_range (pairs data) b e'), log)
      | _, _ => Returns st
      end
  | GFAL_EVENT_LIST_ITEM =>
      item <- sdn_create_pair (description e) ;;
      Returns (with_pairs data (g_sequence_append (pairs data) item), log)
  | GFAL_EVENT_LIST_EXIT => sdn_notify_remote st
  | GFAL_GRIDFTP_PASV_STAGE_QUARK =>
      log' <- sdn_dest_pasv (description e) log ;;
      Returns (data, log')
  | GFAL_EVENT_OTHER _ => Returns st
  end.

(** The engine delivers the events of a session to the listener one after
    the other. *)
Fixpoint deliver (events : list gfalt_event_t) (st : session) : outcome session :=
  match events with
  | [] => Returns st
  | e :: events' => st' <- sdn_event_listener e st ;; deliver events' st'
  end.

(** ** What the claims speak of *)

(** Whether the lookup of a pair's source fails, and the size it gives
    when it does not. *)
Definition lookup_fails (ctx : gfal2_context_t) (p : pair_t) : bool :=
  match gfal2_stat ctx (source p) with
  | Stat_ok _ => false
  | Stat_failed _ => true
  end.

Definition queried_size (ctx : gfal2_context_t) (p : pair_t) : Z :=
  match gfal2_stat ctx (source p) with
  | Stat_ok st_size => st_size
  | Stat_failed _ => 0
  end.

(** The [k] pairs whose lookup fails and the [n - k] whose lookup
    succeeds, in registry order. *)
Definition failed_pairs (ctx : gfal2_context_t) (ps : list pair_t) : list pair_t :=
  filter (lookup_fails ctx) ps.

Definition successful_pairs (ctx : gfal2_context_t) (ps : list pair_t) : list pair_t :=
  filter (fun p => negb (lookup_fails ctx p)) ps.

(** The sum of the sizes of the successful lookups. *)
Definition sum_of_sizes (ctx : gfal2_context_t) (ps : list pair_t) : Z :=
  fold_right Z.add 0%Z (map (queried_size ctx) (successful_pairs ctx ps)).

(** The log entry of a failed lookup: the source path and the error's
    message. *)
Definition failure_entry (ctx : gfal2_context_t) (p : pair_t) : log_entry :=
  (G_LOG_LEVEL_ERROR,
   Could_not_stat (source p)
     match gfal2_stat ctx (source p) with
     | Stat_failed message => message
     | Stat_ok _ => EmptyString
     end).

(** Every running total of a pass over [ps] is within [off_t]: no addition
    of the pass overflows. *)
Definition running_totals_fit (ctx : gfal2_context_t) (ps : list pair_t) : Prop :=
  forall n, (OFF_T_MIN <= sum_of_sizes ctx (firstn n ps) <= OFF_T_MAX)%Z.

End Sdn.

Arguments pairs {gfal2_context_t} _.
Arguments context {gfal2_context_t} _.
Arguments total_size {gfal2_context_t} _.
Arguments with_total_size {gfal2_context_t} _ _.
Arguments with_pairs {gfal2_context_t} _ _.
Arguments sdn_create_data {gfal2_context_t} _.
Arguments sdn_add_size {gfal2_context_t} _ _ _.
Arguments calculate_the_size {gfal2_context_t} _ _.
Arguments sdn_notify_remote {gfal2_context_t} _ _ _.
Arguments sdn_event_listener {gfal2_context_t} _ _ _ _.
Arguments deliver {gfal2_context_t} _ _ _ _.
Arguments queried_size {gfal2_context_t} _ _ _.
Arguments sum_of_sizes {gfal2_context_t} _ _ _.
Arguments lookup_fails {gfal2_context_t} _ _ _.
Arguments failure_entry {gfal2_context_t} _ _ _.
Arguments failed_pairs {gfal2_context_t} _ _ _.
Arguments successful_pairs {gfal2_context_t} _ _ _.
Arguments running_totals_fit {gfal2_context_t} _ _ _.

(** ** The two notification grammars, as the claims state them *)

Fixpoint all_in (cls : ascii -> bool) (s : string) : bool :=
  match s with
  | String c s' => cls c && all_in cls s'
  | EmptyString => true
  end.

(** [sub] occurs in [s]. *)
Definition occurs_in (sub s : string) : Prop :=
  exists before after, s = before ++ sub ++ after.

(** The three groups of a descriptor: not empty, each of its class. *)
Definition pasv_groups (host ip port : string) : Prop :=
  host <> "" /\ all_in host_class host = true
  /\ ip <> "" /\ all_in ip_class ip = true
  /\ port <> "" /\ all_in port_class port = true.

(** [text] is [<host>:[<ip>]:<port>]. *)
Definition pasv_descriptor (host ip port text : string) : Prop :=
  text = host ++ ":[" ++ ip ++ "]:" ++ port /\ pasv_groups host ip port.

Definition matches_pasv_grammar (text : string) : Prop :=
  exists host ip port, pasv_descriptor host ip port text.

(** [description] holds [<host>:[<ip>]:<port>] between [before] and
    [after]. *)
Definition descriptor_at (before host ip port after description : string) : Prop :=
  description = before ++ host ++ ":[" ++ ip ++ "]:" ++ port ++ after
  /\ pasv_groups host ip port.

Definition contains_pasv_descriptor (description : string) : Prop :=
  exists before host ip port after,
    descriptor_at before host ip port after description.

(** The number a run of decimal digits denotes in base 10: each digit
    weighs ten to the number of digits after it. *)
Fixpoint decimal_value (digits : string) : Z :=
  match digits with
  | String d rest =>
      (digit_value d * 10 ^ Z.of_nat (String.length rest) + decimal_value rest)%Z
  | EmptyString => 0%Z
  end.

(** The text of [description] between the offsets of a match. *)
Definition matched_text (description : string) (m : regmatch_t) : string :=
  substring (rm_so m) (rm_eo m - rm_so m) description.

(** ** A session to run the listener in *)

Module Scenario.

Definition context_t : Type := unit.

(** A metadata query that knows two files. *)
Definition stat (_ : context_t) (path : option string) : stat_result :=
  match path with
  | Some p =>
      if String.eqb p "fileA" then Stat_ok 100
      else if String.eqb p "fileC" then Stat_ok 200
      else Stat_failed "No such file or directory"
  | None => Stat_failed "Bad address"
  end.

(** A metadata query that reports two very large files. *)
Definition stat_huge (_ : context_t) (path : option string) : stat_result :=
  match path with
  | Some _ => Stat_ok (2 ^ 62)
  | None => Stat_failed "Bad address"
  end.

(** A URI parser that fails, with NULL, on a NULL string and otherwise
    takes the whole string as the host. *)
Definition parse_uri (uri : option string) : option gfal2_uri :=
  match uri with
  | Some u => Some {| host := Some u |}
  | None => None
  end.

Definition start : session context_t := (sdn_create_data tt, []).

Definition event (s : stage_t) (d : string) : gfalt_event_t :=
  {| stage := s; description := d |}.

Definition two_files : list gfalt_event_t :=
  [ event GFAL_EVENT_LIST_ENTER "";
    event GFAL_EVENT_LIST_ITEM "fileA => fileB";
    event GFAL_EVENT_LIST_ITEM "fileC => fileD";
    event GFAL_EVENT_LIST_EXIT "" ].

Definition long_host : string :=
  string_of_list_ascii (repeat "a"%char 300).

End Scenario.

(** ** What the further properties speak of *)

(** A pair that [sdn_create_pair] can have made: it has a source, and the
    source holds no separator. *)
Definition parsed_pair (p : pair_t) : Prop :=
  exists s, source p = Some s /\ ~ occurs_in " => " s.

(** The description a pair stands for: its source, then the separator and
    its destination when it has one. *)
Definition pair_description (p : pair_t) : option string :=
  match source p, destination p with
  | Some s, Some t => Some (s ++ " => " ++ t)
  | Some s, None => Some s
  | None, _ => None
  end.

(** The stages that are no part of the enter/item/exit framing of a batch. *)
Definition outside_batch (s : stage_t) : bool :=
  match s with
  | GFAL_GRIDFTP_PASV_STAGE_QUARK | GFAL_EVENT_OTHER _ => true
  | _ => false
  end.

Definition is_pasv (s : stage_t) : bool :=
  match s with
  | GFAL_GRIDFTP_PASV_STAGE_QUARK => true
  | _ => false
  end.

(** The events of the items of a batch, in order. *)
Definition list_items (descriptions : list string) : list gfalt_event_t :=
  map (fun d => {| stage := GFAL_EVENT_LIST_ITEM; description := d |}) descriptions.

(* ================================================================== *)
(** * Strings                                                           *)
(* ================================================================== *)

Section StringFacts.

Lemma app_assoc_s (a b c : string) : (a ++ b) ++ c = a ++ (b ++ c).
Proof. induction a as [|x a IH]; simpl; [reflexivity | now rewrite IH]. Qed.

Lemma app_nil_r_s (a : string) : a ++ "" = a.
Proof. induction a as [|x a IH]; simpl; [reflexivity | now rewrite IH]. Qed.

Lemma length_app_s (a b : string) :
  String.length (a ++ b) = String.length a + String.length b.
Proof. induction a as [|x a IH]; simpl; [reflexivity | now rewrite IH]. Qed.

Lemma offset_nil (n : nat) : offset "" n = "".
Proof. destruct n; reflexivity. Qed.

Lemma offset_app (a b : string) : offset (a ++ b) (String.length a) = b.
Proof. induction a as [|x a IH]; simpl; [reflexivity | exact IH]. Qed.

Lemma offset_add (s : string) (n m : nat) : offset s (n + m) = offset (offset s n) m.
Proof.
  revert s; induction n as [|n IH]; intros s; simpl; [reflexivity|].
  destruct s as [|c s]; [now rewrite offset_nil | apply IH].
Qed.

Lemma first_chars_app (a b : string) : first_chars (String.length a) (a ++ b) = a.
Proof. induction a as [|x a IH]; simpl; [now destruct b | now rewrite IH]. Qed.

Lemma first_chars_app_le (n : nat) (a b : string) :
  n <= String.length a -> first_chars n (a ++ b) = first_chars n a.
Proof.
  revert a; induction n as [|n IH]; intros a Hn; [reflexivity|].
  destruct a as [|x a]; simpl in *; [lia|].
  f_equal; apply IH; lia.
Qed.

Lemma first_chars_all (n : nat) (a : string) :
  String.length a <= n -> first_chars n a = a.
Proof.
  revert a; induction n as [|n IH]; intros a Hn.
  - destruct a; simpl in *; [reflexivity | lia].
  - destruct a as [|x a]; simpl in *; [reflexivity|].
    f_equal; apply IH; lia.
Qed.

Lemma length_first_chars (n : nat) (a : string) :
  String.length (first_chars n a) = Nat.min n (String.length a).
Proof.
  revert a; induction n as [|n IH]; intros a; [reflexivity|].
  destruct a as [|x a]; simpl; [reflexivity | now rewrite IH].
Qed.

Lemma first_chars_offset (n : nat) (s : string) :
  first_chars n s ++ offset s n = s.
Proof.
  revert s; induction n as [|n IH]; intros s; [reflexivity|].
  destruct s as [|c s]; simpl; [reflexivity | now rewrite IH].
Qed.

Lemma substring_first_chars (n m : nat) (s : string) :
  substring n m s = first_chars m (offset s n).
Proof.
  revert m s; induction n as [|n IH]; intros m s.
  - simpl. revert s; induction m as [|m IHm]; intros s.
    + now destruct s.
    + destruct s as [|c s]; simpl; [reflexivity | now rewrite IHm].
  - destruct s as [|c s]; simpl; [now destruct m | apply IH].
Qed.

Lemma prefix_app (p r : string) : prefix p (p ++ r) = true.
Proof.
  induction p as [|x p IH]; simpl; [now destruct r|].
  destruct (ascii_dec x x); [exact IH | congruence].
Qed.

Lemma prefix_inv (p s : string) :
  prefix p s = true -> s = p ++ offset s (String.length p).
Proof.
  revert s; induction p as [|x p IH]; intros s H; [reflexivity|].
  destruct s as [|c s]; simpl in H; [discriminate|].
  destruct (ascii_dec x c) as [->|]; [|discriminate].
  simpl. f_equal. now apply IH.
Qed.

Lemma prefix_true_iff (p s : string) :
  prefix p s = true <-> exists r, s = p ++ r.
Proof.
  split.
  - intros H; eexists; now apply prefix_inv.
  - intros [r ->]; apply prefix_app.
Qed.

Lemma occurs_in_cons (sub s : string) (c : ascii) :
  occurs_in sub s -> occurs_in sub (String c s).
Proof. intros (b & a & ->). now exists (String c b), a. Qed.

Lemma occurs_in_head (sub s : string) (c : ascii) :
  occurs_in sub (String c s) -> prefix sub (String c s) = true \/ occurs_in sub s.
Proof.
  intros (b & a & E). destruct b as [|x b].
  - left. simpl in E. rewrite E. apply prefix_app.
  - right. simpl in E. injection E as _ ->. now exists b, a.
Qed.

(** [strstr] finds an occurrence, the first one, whenever there is one. *)
Lemma strstr_found (s needle : string) (i : nat) :
  strstr s needle = Some i ->
  s = first_chars i s ++ needle ++ offset s (i + String.length needle)
  /\ forall j, j < i -> prefix needle (offset s j) = false.
Proof.
  revert i; induction s as [|c s IH]; intros i; cbn [strstr].
  - destruct (prefix needle "") eqn:P; [|discriminate].
    intros [= <-]; split; [|intros; lia].
    simpl. now apply prefix_inv.
  - destruct (prefix needle (String c s)) eqn:P.
    + intros [= <-]; split; [|intros; lia].
      simpl first_chars. simpl append at 1. now apply prefix_inv.
    + destruct (strstr s needle) as [k|] eqn:K; [|discriminate].
      intros [= <-]. destruct (IH k eq_refl) as [E F]. split.
      * simpl. now rewrite <- E.
      * intros [|j] Hj; [exact P | simpl; apply F; lia].
Qed.

Lemma strstr_none (s needle : string) :
  strstr s needle = None <-> ~ occurs_in needle s.
Proof.
  induction s as [|c s IH]; cbn [strstr].
  - destruct (prefix needle "") eqn:P; split; try discriminate; try easy.
    + intros H; exfalso; apply H. exists "", "".
      destruct needle; [reflexivity | discriminate].
    + intros _ (b & a & E). destruct b; simpl in E.
      * rewrite E, prefix_app in P; discriminate.
      * discriminate.
  - destruct (prefix needle (String c s)) eqn:P.
    + split; [discriminate|]. intros H; exfalso; apply H.
      exists "". apply prefix_inv in P. eexists; simpl; exact P.
    + destruct (strstr s needle) as [k|] eqn:K; simpl.
      * split; [discriminate|]. intros H; exfalso; apply H.
        apply occurs_in_cons. destruct (strstr_found _ _ _ K) as [E _].
        eexists _, _; exact E.
      * split; [|reflexivity]. intros _ H.
        apply occurs_in_head in H as [H|H]; [congruence|].
        now apply IH in H.
Qed.

Lemma all_in_app (cls : ascii -> bool) (a b : string) :
  all_in cls (a ++ b) = all_in cls a && all_in cls b.
Proof.
  induction a as [|x a IH]; simpl; [reflexivity|].
  now rewrite IH, andb_assoc.
Qed.

(** A run of class characters followed by a character outside the class
    is spanned exactly. *)
Lemma span_run (cls : ascii -> bool) (run rest : string) :
  all_in cls run = true ->
  span cls (run ++ rest) = String.length run + span cls rest.
Proof.
  induction run as [|x run IH]; simpl; [reflexivity|].
  intros H; apply andb_prop in H as [Hx Hr]. now rewrite Hx, IH.
Qed.

Lemma span_split (cls : ascii -> bool) (s : string) :
  all_in cls (first_chars (span cls s) s) = true
  /\ span cls (offset s (span cls s)) = 0.
Proof.
  induction s as [|c s [IH1 IH2]]; simpl; [easy|].
  destruct (cls c) eqn:E; simpl; [now rewrite E | now rewrite E].
Qed.

End StringFacts.

(* ================================================================== *)
(** * The pair parser                                                   *)
(* ================================================================== *)

Section PairParser.

Lemma strstr_here (s needle : string) :
  prefix needle s = true -> strstr s needle = Some 0.
Proof. intros H; destruct s; cbn [strstr]; now rewrite H. Qed.

Lemma strstr_later (c : ascii) (s needle : string) :
  prefix needle (String c s) = false ->
  strstr (String c s) needle = option_map S (strstr s needle).
Proof. intros H; cbn [strstr]; now rewrite H. Qed.

Lemma g_strsplit_tokens_last (remainder delimiter : string) :
  g_strsplit_tokens 1 remainder delimiter = [remainder].
Proof. cbn [g_strsplit_tokens]. now destruct (strstr remainder delimiter). Qed.

(** With [max_tokens = 2] the vector has the text before the first
    delimiter and everything after it, or the whole string. *)
Lemma g_strsplit_two_found (c : ascii) (s delimiter : string) (i : nat) :
  strstr (String c s) delimiter = Some i ->
  g_strsplit (String c s) delimiter 2 =
    [ first_chars i (String c s);
      offset (String c s) (i + String.length delimiter) ].
Proof.
  intros H. unfold g_strsplit.
  change (Z.to_nat (if (2 <? 1)%Z then G_MAXINT else 2%Z)) with 2.
  cbn [g_strsplit_tokens]. rewrite H.
  now destruct (strstr (offset (String c s) (i + String.length delimiter)) delimiter).
Qed.

Lemma g_strsplit_two_missing (c : ascii) (s delimiter : string) :
  strstr (String c s) delimiter = None ->
  g_strsplit (String c s) delimiter 2 = [String c s].
Proof.
  intros H. unfold g_strsplit.
  change (Z.to_nat (if (2 <? 1)%Z then G_MAXINT else 2%Z)) with 2.
  cbn [g_strsplit_tokens]. now rewrite H.
Qed.

(** An occurrence of the separator that starts inside a non-empty [S]
    and runs into the separator that follows [S] lies within [S ++ " =>"]. *)
Lemma separator_overlap (S D : string) :
  S <> "" ->
  prefix " => " (S ++ " => " ++ D) = true ->
  prefix " => " (S ++ " =>") = true.
Proof.
  intros HS H.
  destruct S as [|c1 [|c2 [|c3 [|c4 r]]]]; [congruence| | | |];
    cbn [append prefix] in H |- *;
    repeat match goal with
           | H : context [ascii_dec ?a ?b] |- _ =>
               destruct (ascii_dec a b); try discriminate; subst
           end;
    repeat match goal with
           | |- context [ascii_dec ?a ?b] =>
               destruct (ascii_dec a b); try congruence
           end;
    try reflexivity.
  now destruct (r ++ " =>").
Qed.

Lemma strstr_at_separator (S D : string) :
  ~ occurs_in " => " (S ++ " =>") ->
  strstr (S ++ " => " ++ D) " => " = Some (String.length S).
Proof.
  induction S as [|c S IH]; intros H.
  - apply strstr_here. apply (prefix_app " => " D).
  - change (String c S ++ " => " ++ D) with (String c (S ++ " => " ++ D)).
    rewrite strstr_later.
    + rewrite IH; [reflexivity|].
      intros O; apply H. now apply occurs_in_cons.
    + destruct (prefix " => " (String c (S ++ " => " ++ D))) eqn:P; [|reflexivity].
      exfalso; apply H.
      apply (separator_overlap (String c S) D) in P; [|discriminate].
      apply prefix_true_iff in P as [r E]. now exists "", r.
Qed.

(** A non-empty description without separator gives the degenerate pair:
    the whole string as source and no destination. *)
Lemma sdn_create_pair_no_separator (description : string) :
  description <> "" ->
  ~ occurs_in " => " description ->
  sdn_create_pair description =
    Returns {| source := Some description; destination := None |}.
Proof.
  intros HE H. destruct description as [|c s]; [congruence|].
  unfold sdn_create_pair.
  rewrite g_strsplit_two_missing by now apply strstr_none.
  reflexivity.
Qed.

(** The source is the text before the first separator and the
    destination is all the text after it. *)
Lemma sdn_create_pair_at_strstr (description : string) (i : nat) :
  strstr description " => " = Some i ->
  sdn_create_pair description =
    Returns {| source := Some (first_chars i description);
               destination := Some (offset description (i + 4)) |}.
Proof.
  intros H. destruct description as [|c s]; [discriminate|].
  unfold sdn_create_pair. rewrite (g_strsplit_two_found _ _ _ _ H).
  reflexivity.
Qed.

End PairParser.

(** C6, as amended: for all strings [S] and [D] such that the separator
    does not occur in [S] followed by [" =>"] (that is, [S] holds no
    separator and does not end in [" =>"]), [sdn_create_pair] on
    [S ++ " => " ++ D] returns the pair of [S] and [D].  [D] is any string:
    the split is at the first separator and gives at most two parts, so a
    destination keeps the separators it contains. *)
Theorem sdn_create_pair_first_separator (S D : string) :
  ~ occurs_in " => " (S ++ " =>") ->
  sdn_create_pair (S ++ " => " ++ D) =
    Returns {| source := Some S; destination := Some D |}.
Proof.
  intros H.
  rewrite (sdn_create_pair_at_strstr _ _ (strstr_at_separator S D H)).
  rewrite first_chars_app, offset_add, offset_app.
  reflexivity.
Qed.

Lemma sdn_create_pair_first_separator_witness :
  ~ occurs_in " => " ("fileA" ++ " =>")
  /\ sdn_create_pair ("fileA" ++ " => " ++ "fileB => fileC") =
       Returns {| source := Some "fileA"; destination := Some "fileB => fileC" |}.
Proof.
  assert (H : ~ occurs_in " => " ("fileA" ++ " =>"))
    by (apply strstr_none; reflexivity).
  split; [exact H | exact (sdn_create_pair_first_separator "fileA" "fileB => fileC" H)].
Defined.

(** C6 as stated fails: neither ["a =>"] nor ["b"] holds a separator, yet
    the first separator of ["a => => b"] starts inside ["a =>"]. *)
Lemma sdn_create_pair_overlapping_separator :
  ~ occurs_in " => " "a =>"
  /\ ~ occurs_in " => " "b"
  /\ sdn_create_pair ("a =>" ++ " => " ++ "b") =
       Returns {| source := Some "a"; destination := Some "=> b" |}
  /\ sdn_create_pair ("a =>" ++ " => " ++ "b") <>
       Returns {| source := Some "a =>"; destination := Some "b" |}.
Proof.
  repeat split; try (apply strstr_none; reflexivity).
  vm_compute. discriminate.
Qed.

(* ================================================================== *)
(** * The size pass                                                     *)
(* ================================================================== *)

(** The widths as numerals, for [lia]. *)
Ltac widths :=
  unfold OFF_T_MIN, OFF_T_MAX, INT_MAX, LONG_MIN, LONG_MAX, off_t_wrap, wrap_signed in *;
  change (64 - 1)%Z with 63%Z in *;
  change (32 - 1)%Z with 31%Z in *;
  change (2 ^ 31)%Z with 2147483648%Z in *;
  change (2 ^ 32)%Z with 4294967296%Z in *;
  change (2 ^ 63)%Z with 9223372036854775808%Z in *;
  change (2 ^ 64)%Z with 18446744073709551616%Z in *.

Section SizePass.

Context {gfal2_context_t : Type}.
Variable gfal2_stat : gfal2_context_t -> option string -> stat_result.

Lemma off_t_wrap_fits (z : Z) :
  (OFF_T_MIN <= z <= OFF_T_MAX)%Z -> off_t_wrap z = z.
Proof. widths. intros H. rewrite Z.mod_small; lia. Qed.

(** Wrapping twice is wrapping once: the running total is the wrapped
    sum of what was added. *)
Lemma off_t_wrap_add (a b : Z) :
  off_t_wrap (off_t_wrap a + b) = off_t_wrap (a + b).
Proof.
  widths. f_equal.
  replace ((a + 9223372036854775808) mod 18446744073709551616
           - 9223372036854775808 + b + 9223372036854775808)%Z
    with ((a + 9223372036854775808) mod 18446744073709551616 + b)%Z by lia.
  rewrite Zplus_mod_idemp_l. f_equal. lia.
Qed.

Lemma sum_of_sizes_cons (ctx : gfal2_context_t) (p : pair_t) (ps : list pair_t) :
  sum_of_sizes gfal2_stat ctx (p :: ps) =
    (queried_size gfal2_stat ctx p + sum_of_sizes gfal2_stat ctx ps)%Z.
Proof.
  unfold sum_of_sizes, successful_pairs, queried_size, lookup_fails.
  cbn [filter]. destruct (gfal2_stat ctx (source p)) eqn:E; cbn [negb map fold_right].
  - reflexivity.
  - unfold queried_size. now rewrite E.
Qed.

Lemma sum_of_sizes_nonneg (ctx : gfal2_context_t) (ps : list pair_t) :
  (forall p, In p ps -> 0 <= queried_size gfal2_stat ctx p)%Z ->
  (0 <= sum_of_sizes gfal2_stat ctx ps)%Z.
Proof.
  induction ps as [|p ps IH]; intros H; [reflexivity|].
  rewrite sum_of_sizes_cons.
  assert (0 <= queried_size gfal2_stat ctx p)%Z by (apply H; now left).
  assert (0 <= sum_of_sizes gfal2_stat ctx ps)%Z by (apply IH; intros; apply H; now right).
  lia.
Qed.

(** [k] failed lookups and [n - k] successful ones. *)
Lemma failed_and_successful (ctx : gfal2_context_t) (ps : list pair_t) :
  List.length (failed_pairs gfal2_stat ctx ps)
  + List.length (successful_pairs gfal2_stat ctx ps) = List.length ps.
Proof.
  unfold failed_pairs, successful_pairs.
  induction ps as [|p ps IH]; [reflexivity|].
  cbn [filter]. destruct (lookup_fails gfal2_stat ctx p); cbn [negb List.length]; lia.
Qed.

(** The traversal from any running total: every pair is visited once, in
    order; a failure adds a log entry and leaves the total alone. *)
Lemma foreach_sdn_add_size (ps registry : list pair_t) (ctx : gfal2_context_t)
  (total : Z) (log : list log_entry) :
  g_sequence_foreach ps (sdn_add_size gfal2_stat)
    ({| pairs := registry; context := ctx; total_size := off_t_wrap total |}, log) =
  ({| pairs := registry; context := ctx;
      total_size := off_t_wrap (total + sum_of_sizes gfal2_stat ctx ps) |},
   (log ++ map (failure_entry gfal2_stat ctx) (failed_pairs gfal2_stat ctx ps))%list).
Proof.
  unfold g_sequence_foreach.
  revert total log; induction ps as [|p ps IH]; intros total log.
  - cbn. now rewrite Z.add_0_r, app_nil_r.
  - rewrite sum_of_sizes_cons. cbn [fold_left].
    unfold failed_pairs, failure_entry, queried_size, lookup_fails.
    cbn [sdn_add_size context total_size filter].
    destruct (gfal2_stat ctx (source p)) as [message|st_size] eqn:E.
    + cbn [map]. rewrite IH, Z.add_0_l, <- app_assoc.
      unfold failed_pairs, failure_entry. cbn [app]. now rewrite E.
    + unfold with_total_size. cbn [pairs context total_size].
      rewrite off_t_wrap_add, IH. do 3 f_equal. lia.
Qed.

Lemma calculate_the_size_wraps (data : sdn_t gfal2_context_t) (log : list log_entry) :
  calculate_the_size gfal2_stat (data, log) =
    (with_total_size data
       (off_t_wrap (sum_of_sizes gfal2_stat (context data) (pairs data))),
     (log ++ map (failure_entry gfal2_stat (context data))
               (failed_pairs gfal2_stat (context data) (pairs data)))%list).
Proof.
  destruct data as [ps ctx total].
  unfold calculate_the_size, with_total_size. cbn [pairs context total_size].
  change 0%Z with (off_t_wrap 0) at 1.
  now rewrite foreach_sdn_add_size.
Qed.

Lemma running_totals_fit_wrap (ctx : gfal2_context_t) (ps : list pair_t) :
  running_totals_fit gfal2_stat ctx ps ->
  off_t_wrap (sum_of_sizes gfal2_stat ctx ps) = sum_of_sizes gfal2_stat ctx ps.
Proof.
  intros H. apply off_t_wrap_fits.
  specialize (H (List.length ps)). now rewrite firstn_all in H.
Qed.

Lemma sum_of_sizes_firstn (ctx : gfal2_context_t) (ps : list pair_t) (n : nat) :
  (forall p, In p ps -> 0 <= queried_size gfal2_stat ctx p)%Z ->
  (0 <= sum_of_sizes gfal2_stat ctx (firstn n ps) <= sum_of_sizes gfal2_stat ctx ps)%Z.
Proof.
  revert n; induction ps as [|p ps IH]; intros n Hpos.
  - rewrite firstn_nil. cbn. lia.
  - assert (0 <= queried_size gfal2_stat ctx p)%Z by (apply Hpos; now left).
    assert (Hps : forall q, In q ps -> (0 <= queried_size gfal2_stat ctx q)%Z)
      by (intros; apply Hpos; now right).
    pose proof (sum_of_sizes_nonneg ctx ps Hps).
    destruct n as [|n]; cbn [firstn]; rewrite ?sum_of_sizes_cons.
    + cbn. lia.
    + specialize (IH n Hps). lia.
Qed.

(** Sizes are not negative in practice; then the running totals grow, and
    they fit as soon as the last one does. *)
Lemma nonnegative_sizes_fit (ctx : gfal2_context_t) (ps : list pair_t) :
  (forall p, In p ps -> 0 <= queried_size gfal2_stat ctx p)%Z ->
  (sum_of_sizes gfal2_stat ctx ps <= OFF_T_MAX)%Z ->
  running_totals_fit gfal2_stat ctx ps.
Proof.
  intros Hpos Hmax n.
  pose proof (sum_of_sizes_firstn ctx ps n Hpos).
  unfold OFF_T_MIN, OFF_T_MAX in *. lia.
Qed.

End SizePass.

(** C1, as amended: for every registry of [n] pairs of which the lookups of
    [k] fail, when every running total of the pass is within [off_t], the
    size pass starts from 0, ends, stores the sum of the [n - k] successful
    sizes in [total_size], and logs one error entry (source path and error
    message) per failed lookup, in order.  The pass is a total function:
    it ends on every registry and never gives up. *)
Theorem size_pass_sums_successful_lookups
  {gfal2_context_t : Type}
  (gfal2_stat : gfal2_context_t -> option string -> stat_result)
  (data : sdn_t gfal2_context_t) (log : list log_entry) :
  running_totals_fit gfal2_stat (context data) (pairs data) ->
  calculate_the_size gfal2_stat (data, log) =
    (with_total_size data
       (fold_right Z.add 0%Z
          (map (queried_size gfal2_stat (context data))
             (successful_pairs gfal2_stat (context data) (pairs data)))),
     (log ++ map (failure_entry gfal2_stat (context data))
               (failed_pairs gfal2_stat (context data) (pairs data)))%list)
  /\ List.length (successful_pairs gfal2_stat (context data) (pairs data)) =
       List.length (pairs data)
       - List.length (failed_pairs gfal2_stat (context data) (pairs data)).
Proof.
  intros Hfit. split.
  - rewrite calculate_the_size_wraps.
    rewrite (running_totals_fit_wrap _ _ _ Hfit). reflexivity.
  - pose proof (failed_and_successful gfal2_stat (context data) (pairs data)). lia.
Qed.

Lemma size_pass_sums_successful_lookups_witness :
  let registry :=
    [ {| source := Some "fileA"; destination := Some "fileB" |};
      {| source := Some "fileX"; destination := Some "fileY" |};
      {| source := Some "fileC"; destination := Some "fileD" |} ] in
  let data := {| pairs := registry; context := tt; total_size := 7 |} in
  running_totals_fit Scenario.stat (context data) (pairs data)
  /\ calculate_the_size Scenario.stat (data, []) =
       ({| pairs := registry; context := tt; total_size := 300 |},
        [(G_LOG_LEVEL_ERROR,
          Could_not_stat (Some "fileX") "No such file or directory")]).
Proof.
  intros registry data.
  assert (Hfit : running_totals_fit Scenario.stat (context data) (pairs data)).
  { intros [|[|[|[|n]]]]; vm_compute; split; discriminate. }
  split; [exact Hfit|].
  exact (proj1 (size_pass_sums_successful_lookups Scenario.stat data [] Hfit)).
Defined.

(** C1 as stated fails: two lookups succeed with 2^62 bytes each, none
    fails, and the total stored is not their sum, which [off_t] cannot
    hold. *)
Lemma size_pass_sum_exceeds_off_t :
  let registry :=
    [ {| source := Some "fileA"; destination := Some "fileB" |};
      {| source := Some "fileC"; destination := Some "fileD" |} ] in
  let data := {| pairs := registry; context := tt; total_size := 0 |} in
  failed_pairs Scenario.stat_huge tt registry = []
  /\ sum_of_sizes Scenario.stat_huge tt registry = (2 ^ 63)%Z
  /\ total_size (fst (calculate_the_size Scenario.stat_huge (data, []))) = (- 2 ^ 63)%Z
  /\ total_size (fst (calculate_the_size Scenario.stat_huge (data, [])))
     <> sum_of_sizes Scenario.stat_huge tt registry.
Proof.
  repeat split; vm_compute; discriminate.
Qed.

(* ================================================================== *)
(** * The dispatcher                                                    *)
(* ================================================================== *)

Section Dispatcher.

Context {gfal2_context_t : Type}.
Variable gfal2_stat : gfal2_context_t -> option string -> stat_result.
Variable gfal2_parse_uri : option string -> option gfal2_uri.

Local Abbreviation listener := (sdn_event_listener gfal2_stat gfal2_parse_uri).

Lemma remove_whole_range {A : Type} (seq : GSequence A) :
  g_sequence_remove_range seq 0 (List.length seq) = [].
Proof. unfold g_sequence_remove_range. now rewrite skipn_all. Qed.

(** [GFAL_EVENT_LIST_ENTER] empties the registry and touches nothing else. *)
Lemma listener_list_enter (d : string) (data : sdn_t gfal2_context_t)
  (log : list log_entry) :
  listener {| stage := GFAL_EVENT_LIST_ENTER; description := d |} (data, log) =
    Returns (with_pairs data [], log).
Proof.
  unfold sdn_event_listener. cbn [stage g_sequence_get_begin_iter g_sequence_get_end_iter].
  now rewrite remove_whole_range.
Qed.

(** [GFAL_EVENT_LIST_ITEM] appends the pair that [sdn_create_pair] makes. *)
Lemma listener_list_item (d : string) (item : pair_t)
  (data : sdn_t gfal2_context_t) (log : list log_entry) :
  sdn_create_pair d = Returns item ->
  listener {| stage := GFAL_EVENT_LIST_ITEM; description := d |} (data, log) =
    Returns (with_pairs data (pairs data ++ [item])%list, log).
Proof.
  intros H. unfold sdn_event_listener. cbn [stage description]. now rewrite H.
Qed.

(** [GFAL_EVENT_LIST_EXIT] on a registry whose first pair gives two URIs. *)
Lemma listener_list_exit (d : string) (first : pair_t) (rest : list pair_t)
  (ctx : gfal2_context_t) (total : Z) (log : list log_entry) (src dst : gfal2_uri) :
  gfal2_parse_uri (source first) = Some src ->
  gfal2_parse_uri (destination first) = Some dst ->
  let data := {| pairs := first :: rest; context := ctx; total_size := total |} in
  listener {| stage := GFAL_EVENT_LIST_EXIT; description := d |} (data, log) =
    Returns
      (fst (calculate_the_size gfal2_stat (data, log)),
       (snd (calculate_the_size gfal2_stat (data, log))
        ++ [(G_LOG_LEVEL_WARNING,
             Between_hosts (host src) (host dst)
               (Z.of_nat (List.length (first :: rest)))
               (total_size (fst (calculate_the_size gfal2_stat (data, log)))))])%list).
Proof.
  intros Hs Hd data.
  unfold sdn_event_listener, sdn_notify_remote.
  cbn [stage g_sequence_get_begin_iter g_sequence_get pairs data nth_error].
  rewrite Hs, Hd.
  rewrite calculate_the_size_wraps. reflexivity.
Qed.

(** Without a first pair, or without one of the two URIs, the exit
    handler reads through a NULL pointer. *)
Lemma listener_list_exit_empty (d : string) (ctx : gfal2_context_t) (total : Z)
  (log : list log_entry) :
  listener {| stage := GFAL_EVENT_LIST_EXIT; description := d |}
    ({| pairs := []; context := ctx; total_size := total |}, log) =
    Undefined NullDereference.
Proof. reflexivity. Qed.

Lemma listener_list_exit_no_uri (d : string) (first : pair_t) (rest : list pair_t)
  (ctx : gfal2_context_t) (total : Z) (log : list log_entry) :
  gfal2_parse_uri (source first) = None \/ gfal2_parse_uri (destination first) = None ->
  listener {| stage := GFAL_EVENT_LIST_EXIT; description := d |}
    ({| pairs := first :: rest; context := ctx; total_size := total |}, log) =
    Undefined NullDereference.
Proof.
  intros H. unfold sdn_event_listener, sdn_notify_remote.
  cbn [stage g_sequence_get_begin_iter g_sequence_get pairs nth_error].
  destruct (calculate_the_size _ _) as [data' log'].
  destruct H as [-> | ->]; [reflexivity|].
  now destruct (gfal2_parse_uri (source first)).
Qed.

End Dispatcher.

(** C2: the events BatchEnter, BatchItem "fileA => fileB",
    BatchItem "fileC => fileD", BatchExit, delivered to a session in any
    state (whatever pairs, total and log it holds), with a metadata query
    that gives 100 for fileA and 200 for fileC and a URI parser that gives a
    URI for fileA and one for fileB, add exactly one entry to the log, the
    notification: the hosts of those two URIs, 2 files, 300 bytes.  The
    registry then holds the two pairs and nothing else, and [total_size] is
    300. *)
Theorem two_file_batch_notifies_once
  {gfal2_context_t : Type}
  (gfal2_stat : gfal2_context_t -> option string -> stat_result)
  (gfal2_parse_uri : option string -> option gfal2_uri)
  (data : sdn_t gfal2_context_t) (log : list log_entry) (src dst : gfal2_uri) :
  gfal2_stat (context data) (Some "fileA") = Stat_ok 100 ->
  gfal2_stat (context data) (Some "fileC") = Stat_ok 200 ->
  gfal2_parse_uri (Some "fileA") = Some src ->
  gfal2_parse_uri (Some "fileB") = Some dst ->
  deliver gfal2_stat gfal2_parse_uri Scenario.two_files (data, log) =
    Returns
      ({| pairs := [ {| source := Some "fileA"; destination := Some "fileB" |};
                     {| source := Some "fileC"; destination := Some "fileD" |} ];
          context := context data;
          total_size := 300 |},
       (log ++ [(G_LOG_LEVEL_WARNING, Between_hosts (host src) (host dst) 2 300)])%list).
Proof.
  intros HA HC Hsrc Hdst.
  unfold Scenario.two_files, Scenario.event. cbn [deliver].
  rewrite listener_list_enter. cbn [bind].
  rewrite (listener_list_item _ _ "fileA => fileB"
             {| source := Some "fileA"; destination := Some "fileB" |} _ _ eq_refl).
  cbn [bind].
  rewrite (listener_list_item _ _ "fileC => fileD"
             {| source := Some "fileC"; destination := Some "fileD" |} _ _ eq_refl).
  cbn [bind].
  unfold with_pairs.
  cbn [pairs context total_size app].
  rewrite (listener_list_exit gfal2_stat gfal2_parse_uri ""
             {| source := Some "fileA"; destination := Some "fileB" |}
             _ (context data) (total_size data) log src dst Hsrc Hdst).
  cbn [bind].
  rewrite calculate_the_size_wraps.
  unfold with_total_size, failed_pairs, lookup_fails.
  cbn [fst snd pairs context total_size filter source].
  rewrite !sum_of_sizes_cons. unfold queried_size. cbn [source].
  rewrite HA, HC. cbn [map]. rewrite app_nil_r. reflexivity.
Qed.

Lemma two_file_batch_notifies_once_witness :
  let held : sdn_t unit :=
    {| pairs := [ {| source := Some "fileX"; destination := Some "fileY" |} ];
       context := tt; total_size := 77 |} in
  let logged := [(G_LOG_LEVEL_CRITICAL, Could_not_be_parsed "earlier")] in
  Scenario.stat (context held) (Some "fileA") = Stat_ok 100
  /\ Scenario.stat (context held) (Some "fileC") = Stat_ok 200
  /\ Scenario.parse_uri (Some "fileA") = Some {| host := Some "fileA" |}
  /\ Scenario.parse_uri (Some "fileB") = Some {| host := Some "fileB" |}
  /\ deliver Scenario.stat Scenario.parse_uri Scenario.two_files (held, logged) =
       Returns
         ({| pairs := [ {| source := Some "fileA"; destination := Some "fileB" |};
                        {| source := Some "fileC"; destination := Some "fileD" |} ];
             context := tt;
             total_size := 300 |},
          [ (G_LOG_LEVEL_CRITICAL, Could_not_be_parsed "earlier");
            (G_LOG_LEVEL_WARNING, Between_hosts (Some "fileA") (Some "fileB") 2 300) ])
  /\ deliver Scenario.stat Scenario.parse_uri Scenario.two_files Scenario.start =
       Returns
         ({| pairs := [ {| source := Some "fileA"; destination := Some "fileB" |};
                        {| source := Some "fileC"; destination := Some "fileD" |} ];
             context := tt;
             total_size := 300 |},
          [ (G_LOG_LEVEL_WARNING, Between_hosts (Some "fileA") (Some "fileB") 2 300) ]).
Proof.
  intros held logged.
  do 4 (split; [reflexivity|]).
  split.
  - exact (two_file_batch_notifies_once Scenario.stat Scenario.parse_uri held logged
             {| host := Some "fileA" |} {| host := Some "fileB" |}
             eq_refl eq_refl eq_refl eq_refl).
  - exact (two_file_batch_notifies_once Scenario.stat Scenario.parse_uri
             (sdn_create_data tt) []
             {| host := Some "fileA" |} {| host := Some "fileB" |}
             eq_refl eq_refl eq_refl eq_refl).
Defined.

(** C3, on the code: a BatchExit on an empty registry, whether the session
    is fresh or a BatchEnter has just emptied it, makes the exit handler read
    [pair->source] through the NULL that [g_sequence_get] gives at the end
    iterator: the behaviour is undefined, nothing is skipped and nothing
    completes. *)
Theorem batch_exit_on_empty_registry
  {gfal2_context_t : Type}
  (gfal2_stat : gfal2_context_t -> option string -> stat_result)
  (gfal2_parse_uri : option string -> option gfal2_uri)
  (ctx : gfal2_context_t) (st : session gfal2_context_t) (d d' : string) :
  deliver gfal2_stat gfal2_parse_uri
    [ {| stage := GFAL_EVENT_LIST_EXIT; description := d |} ]
    (sdn_create_data ctx, []) = Undefined NullDereference
  /\ deliver gfal2_stat gfal2_parse_uri
       [ {| stage := GFAL_EVENT_LIST_ENTER; description := d |};
         {| stage := GFAL_EVENT_LIST_EXIT; description := d' |} ]
       st = Undefined NullDereference.
Proof.
  split; [reflexivity|].
  destruct st as [data log]. cbn [deliver].
  rewrite listener_list_enter. reflexivity.
Qed.

(** C10, on the code: when the first pair of the registry has no
    destination and the URI parser answers NULL to the NULL string it is
    handed, a BatchExit reads [destination->host] through NULL: the
    behaviour is undefined and no notification is made. *)
Theorem batch_exit_absent_destination
  {gfal2_context_t : Type}
  (gfal2_stat : gfal2_context_t -> option string -> stat_result)
  (gfal2_parse_uri : option string -> option gfal2_uri)
  (ctx : gfal2_context_t) (total : Z) (log : list log_entry)
  (src : option string) (rest : list pair_t) (d : string) :
  gfal2_parse_uri None = None ->
  sdn_event_listener gfal2_stat gfal2_parse_uri
    {| stage := GFAL_EVENT_LIST_EXIT; description := d |}
    ({| pairs := {| source := src; destination := None |} :: rest;
        context := ctx; total_size := total |}, log) =
    Undefined NullDereference.
Proof.
  intros H. apply listener_list_exit_no_uri. now right.
Qed.

Lemma batch_exit_absent_destination_witness :
  Scenario.parse_uri None = None
  /\ deliver Scenario.stat Scenario.parse_uri
       [ Scenario.event GFAL_EVENT_LIST_ENTER "";
         Scenario.event GFAL_EVENT_LIST_ITEM "fileA" ]
       Scenario.start =
       Returns ({| pairs := [ {| source := Some "fileA"; destination := None |} ];
                   context := tt; total_size := 0 |}, [])
  /\ sdn_event_listener Scenario.stat Scenario.parse_uri
       (Scenario.event GFAL_EVENT_LIST_EXIT "")
       ({| pairs := [ {| source := Some "fileA"; destination := None |} ];
           context := tt; total_size := 0 |}, []) =
       Undefined NullDereference.
Proof.
  split; [reflexivity|]. split; [reflexivity|].
  exact (batch_exit_absent_destination Scenario.stat Scenario.parse_uri
           tt 0 [] (Some "fileA") [] "" eq_refl).
Defined.

(** C8, as amended: an event that the listener completes leaves
    [total_size] as it was, unless it is a BatchExit; after a BatchExit,
    when every running total of the pass is within [off_t], [total_size]
    is the sum of the sizes of the successful lookups over the pairs held.
    After a BatchEnter or a BatchItem it is still the total of the last
    pass. *)
Theorem total_size_after_event
  {gfal2_context_t : Type}
  (gfal2_stat : gfal2_context_t -> option string -> stat_result)
  (gfal2_parse_uri : option string -> option gfal2_uri)
  (e : gfalt_event_t) (st st' : session gfal2_context_t) :
  sdn_event_listener gfal2_stat gfal2_parse_uri e st = Returns st' ->
  match stage e with
  | GFAL_EVENT_LIST_EXIT =>
      running_totals_fit gfal2_stat (context (fst st)) (pairs (fst st)) ->
      pairs (fst st') = pairs (fst st)
      /\ total_size (fst st') =
           sum_of_sizes gfal2_stat (context (fst st')) (pairs (fst st'))
  | _ => total_size (fst st') = total_size (fst st)
  end.
Proof.
  destruct st as [[ps ctx total] log], e as [stg d].
  unfold sdn_event_listener. cbn [stage description fst].
  destruct stg.
  - cbn [g_sequence_get_begin_iter g_sequence_get_end_iter pairs].
    now intros [= <-].
  - destruct (sdn_create_pair d); cbn [bind]; [|discriminate].
    now intros [= <-].
  - unfold sdn_notify_remote, g_sequence_get_begin_iter, g_sequence_get.
    cbn [pairs].
    destruct ps as [|first rest]; cbn [nth_error]; [discriminate|].
    rewrite calculate_the_size_wraps. cbv beta iota.
    destruct (gfal2_parse_uri (source first)); [|discriminate].
    destruct (gfal2_parse_uri (destination first)); [|discriminate].
    intros [= <-] Hfit. unfold with_total_size in *. cbn [fst pairs context total_size] in *.
    split; [reflexivity|]. now apply running_totals_fit_wrap.
  - destruct (sdn_dest_pasv d log); cbn [bind]; [|discriminate].
    now intros [= <-].
  - now intros [= <-].
Qed.

Lemma total_size_after_event_witness :
  let e := Scenario.event GFAL_EVENT_LIST_EXIT "" in
  let st : session unit :=
    ({| pairs := [ {| source := Some "fileA"; destination := Some "fileB" |};
                   {| source := Some "fileC"; destination := Some "fileD" |} ];
        context := tt; total_size := 0 |}, []) in
  let st' : session unit :=
    ({| pairs := pairs (fst st); context := tt; total_size := 300 |},
     [(G_LOG_LEVEL_WARNING, Between_hosts (Some "fileA") (Some "fileB") 2 300)]) in
  sdn_event_listener Scenario.stat Scenario.parse_uri e st = Returns st'
  /\ running_totals_fit Scenario.stat (context (fst st)) (pairs (fst st))
  /\ total_size (fst st') =
       sum_of_sizes Scenario.stat (context (fst st')) (pairs (fst st')).
Proof.
  intros e st st'.
  assert (Hrun : sdn_event_listener Scenario.stat Scenario.parse_uri e st = Returns st')
    by reflexivity.
  assert (Hfit : running_totals_fit Scenario.stat (context (fst st)) (pairs (fst st))).
  { intros [|[|[|n]]]; vm_compute; split; discriminate. }
  split; [exact Hrun|]. split; [exact Hfit|].
  exact (proj2 (total_size_after_event Scenario.stat Scenario.parse_uri e st st'
                  Hrun Hfit)).
Defined.

(** C8 as stated fails: after the batch of two files and the BatchEnter
    of the next batch the registry is empty, the sum over it is 0, and
    [total_size] is still 300. *)
Lemma total_size_stale_after_batch_enter :
  exists st' : session unit,
    deliver Scenario.stat Scenario.parse_uri
      (Scenario.two_files ++ [Scenario.event GFAL_EVENT_LIST_ENTER ""])%list
      Scenario.start = Returns st'
    /\ pairs (fst st') = []
    /\ total_size (fst st') = 300%Z
    /\ sum_of_sizes Scenario.stat (context (fst st')) (pairs (fst st')) = 0%Z
    /\ total_size (fst st') <>
         sum_of_sizes Scenario.stat (context (fst st')) (pairs (fst st')).
Proof.
  eexists. split; [vm_compute; reflexivity|].
  repeat split; vm_compute; discriminate.
Qed.

(* ================================================================== *)
(** * The passive-mode descriptor parser                                *)
(* ================================================================== *)

Section Pattern.

Lemma length_pos_s (s : string) : s <> "" <-> 0 < String.length s.
Proof. destruct s; simpl; split; intros; try congruence; lia. Qed.

Lemma span_le_length (cls : ascii -> bool) (s : string) :
  span cls s <= String.length s.
Proof. induction s as [|c s IH]; simpl; [lia|]. destruct (cls c); lia. Qed.

Lemma span_host_stop (rest : string) : span host_class (":[" ++ rest) = 0.
Proof. reflexivity. Qed.

Lemma span_ip_stop (rest : string) : span ip_class ("]:" ++ rest) = 0.
Proof. reflexivity. Qed.

Lemma all_in_first_chars (cls : ascii -> bool) (n : nat) (s : string) :
  all_in cls s = true -> all_in cls (first_chars n s) = true.
Proof.
  revert s; induction n as [|n IH]; intros s H; [reflexivity|].
  destruct s as [|c s]; [reflexivity|]. simpl in *.
  apply andb_prop in H as [Hc Hs]. now rewrite Hc, IH.
Qed.

(** The pattern matches at the head of a descriptor, with the groups of
    the descriptor and every digit that follows the port. *)
Lemma match_here_complete (host ip port after : string) :
  pasv_groups host ip port ->
  match_here (host ++ ":[" ++ ip ++ "]:" ++ port ++ after) =
    Some (String.length host, String.length ip,
          String.length port + span port_class after).
Proof.
  intros (Hh & Ah & Hi & Ai & Hp & Ap).
  unfold match_here. cbv zeta.
  rewrite (span_run host_class host _ Ah), span_host_stop, Nat.add_0_r, offset_app.
  change (offset (":[" ++ ip ++ "]:" ++ port ++ after) 2)
    with (ip ++ "]:" ++ port ++ after).
  rewrite (span_run ip_class ip _ Ai), span_ip_stop, Nat.add_0_r, offset_app.
  change (offset ("]:" ++ port ++ after) 2) with (port ++ after).
  rewrite (span_run port_class port _ Ap).
  rewrite (prefix_app ":["), (prefix_app "]:").
  apply length_pos_s in Hh, Hi, Hp.
  replace (Nat.ltb 0 (String.length host)) with true
    by (symmetry; now apply Nat.ltb_lt).
  replace (Nat.ltb 0 (String.length ip)) with true
    by (symmetry; now apply Nat.ltb_lt).
  replace (Nat.ltb 0 (String.length port + span port_class after)) with true
    by (symmetry; apply Nat.ltb_lt; lia).
  reflexivity.
Qed.

(** What the pattern matches at the head of a string is a descriptor,
    and no digit follows its port. *)
Lemma match_here_sound (s : string) (h i p : nat) :
  match_here s = Some (h, i, p) ->
  exists host ip port rest,
    s = host ++ ":[" ++ ip ++ "]:" ++ port ++ rest
    /\ pasv_groups host ip port
    /\ String.length host = h /\ String.length ip = i /\ String.length port = p
    /\ span port_class rest = 0.
Proof.
  unfold match_here. cbv zeta.
  set (s1 := offset s (span host_class s)).
  set (s2 := offset (offset s1 2) (span ip_class (offset s1 2))).
  destruct (_ && _) eqn:C; [|discriminate].
  intros [= <- <- <-].
  repeat (apply andb_prop in C as [C ?]).
  repeat match goal with H : Nat.ltb _ _ = true |- _ => apply Nat.ltb_lt in H end.
  repeat match goal with H : prefix _ _ = true |- _ => apply prefix_inv in H end.
  cbn [String.length] in *.
  exists (first_chars (span host_class s) s),
         (first_chars (span ip_class (offset s1 2)) (offset s1 2)),
         (first_chars (span port_class (offset s2 2)) (offset s2 2)),
         (offset (offset s2 2) (span port_class (offset s2 2))).
  pose proof (span_split host_class s) as [Ah _].
  pose proof (span_split ip_class (offset s1 2)) as [Ai _].
  pose proof (span_split port_class (offset s2 2)) as [Ap Sp].
  pose proof (span_le_length host_class s).
  pose proof (span_le_length ip_class (offset s1 2)).
  pose proof (span_le_length port_class (offset s2 2)).
  assert (Lh : String.length (first_chars (span host_class s) s) = span host_class s)
    by (rewrite length_first_chars; lia).
  assert (Li : String.length (first_chars (span ip_class (offset s1 2)) (offset s1 2))
               = span ip_class (offset s1 2))
    by (rewrite length_first_chars; lia).
  assert (Lp : String.length (first_chars (span port_class (offset s2 2)) (offset s2 2))
               = span port_class (offset s2 2))
    by (rewrite length_first_chars; lia).
  split; [|split; [|now repeat split]].
  - rewrite (first_chars_offset (span port_class (offset s2 2)) (offset s2 2)).
    match goal with H : s2 = _ |- _ => rewrite <- H end.
    unfold s2.
    rewrite (first_chars_offset (span ip_class (offset s1 2)) (offset s1 2)).
    match goal with H : s1 = _ |- _ => rewrite <- H end.
    unfold s1. now rewrite first_chars_offset.
  - repeat split; try assumption; apply length_pos_s; lia.
Qed.

Lemma regexec_from_here (so : nat) (s : string) (h i p : nat) :
  match_here s = Some (h, i, p) ->
  regexec_from so s = Some (group_offsets so h i p).
Proof. intros H. destruct s; cbn [regexec_from]; now rewrite H. Qed.

(** [regexec] answers with the offsets of a descriptor that the
    description holds, and no descriptor starts further left. *)
Lemma regexec_from_found (s : string) (so : nat) (matches : list regmatch_t) :
  regexec_from so s = Some matches ->
  exists before host ip port rest,
    descriptor_at before host ip port rest s
    /\ span port_class rest = 0
    /\ matches = group_offsets (so + String.length before)
                   (String.length host) (String.length ip) (String.length port)
    /\ forall j, j < String.length before -> match_here (offset s j) = None.
Proof.
  revert so; induction s as [|c s IH]; intros so; cbn [regexec_from].
  - destruct (match_here "") as [[[h i] p]|] eqn:M; [|discriminate].
    discriminate M.
  - destruct (match_here (String c s)) as [[[h i] p]|] eqn:M.
    + intros [= <-].
      destruct (match_here_sound _ _ _ _ M) as (host & ip & port & rest & E & G & <- & <- & <- & Sp).
      exists "", host, ip, port, rest. rewrite Nat.add_0_r.
      repeat split; try assumption; try apply G.
      cbn [String.length]; intros; lia.
    + intros H. apply IH in H as (before & host & ip & port & rest & [E G] & Sp & -> & L).
      exists (String c before), host, ip, port, rest.
      cbn [String.length]. rewrite Nat.add_succ_r.
      repeat split; try assumption; try apply G.
      * cbn [append]. now rewrite E.
      * intros [|j] Hj; [exact M | cbn [offset]; apply L; lia].
Qed.

(** [REG_NOMATCH] only when the description holds no descriptor. *)
Lemma regexec_from_complete (before host ip port after : string) (so : nat) :
  pasv_groups host ip port ->
  regexec_from so (before ++ host ++ ":[" ++ ip ++ "]:" ++ port ++ after) <> None.
Proof.
  intros G. revert so; induction before as [|c before IH]; intros so.
  - cbn [append].
    now rewrite (regexec_from_here _ _ _ _ _ (match_here_complete host ip port after G)).
  - cbn [append regexec_from]. destruct (match_here _) as [[[h i] p]|]; [discriminate|].
    apply IH.
Qed.

(** POSIX picks the leftmost match and, there, the longest one. *)
Lemma regexec_leftmost (d : string) (so h i p : nat)
  (before host ip port after : string) :
  regexec d = Some (group_offsets so h i p) ->
  descriptor_at before host ip port after d ->
  so <= String.length before.
Proof.
  unfold regexec. intros R [E G].
  apply regexec_from_found in R
    as (before' & host' & ip' & port' & rest' & _ & _ & Eq & L).
  injection Eq as -> _ _ _ _ _ _ _. cbn [Nat.add].
  destruct (Nat.le_gt_cases (String.length before') (String.length before))
    as [|Hlt]; [assumption|].
  specialize (L _ Hlt). rewrite E, offset_app in L.
  now rewrite (match_here_complete host ip port after G) in L.
Qed.

Lemma regexec_longest (d : string) (h i p : nat)
  (before host ip port after : string) :
  regexec d = Some (group_offsets (String.length before) h i p) ->
  descriptor_at before host ip port after d ->
  String.length host = h /\ String.length ip = i /\ String.length port <= p.
Proof.
  unfold regexec. intros R [E G].
  apply regexec_from_found in R
    as (before' & host' & ip' & port' & rest' & [E' G'] & Sp & Eq & _).
  injection Eq as Eb _ Eh _ Ei _ Ep. cbn [Nat.add] in *.
  assert (M : match_here (offset d (String.length before)) =
              Some (String.length host, String.length ip,
                    String.length port + span port_class after))
    by (rewrite E, offset_app; now apply match_here_complete).
  assert (M' : match_here (offset d (String.length before')) =
               Some (String.length host', String.length ip',
                     String.length port' + span port_class rest'))
    by (rewrite E', offset_app; now apply match_here_complete).
  rewrite <- Eb, M in M'. injection M' as Hh Hi Hp. lia.
Qed.

Lemma regexec_none_iff (description : string) :
  regexec description = None <-> ~ contains_pasv_descriptor description.
Proof.
  unfold regexec. split.
  - intros H (before & host & ip & port & after & -> & G).
    now apply (regexec_from_complete before host ip port after 0 G).
  - intros H. destruct (regexec_from 0 description) as [matches|] eqn:R; [|reflexivity].
    exfalso; apply H.
    apply regexec_from_found in R as (before & host & ip & port & rest & D & _).
    now exists before, host, ip, port, rest.
Qed.

End Pattern.

Section Endpoint.

Lemma length_list_ascii_of_string (s : string) :
  List.length (list_ascii_of_string s) = String.length s.
Proof. induction s as [|c s IH]; simpl; [reflexivity | now rewrite IH]. Qed.

(** Reading back what [g_strlcpy] stored gives the characters copied,
    as long as none of them is NUL. *)
Lemma c_string_of_stored (cls : ascii -> bool) (s : string) :
  cls NUL = false ->
  all_in cls s = true ->
  c_string_of (list_ascii_of_string s ++ [NUL]) = s.
Proof.
  intros HN. induction s as [|c s IH]; intros H; [reflexivity|].
  simpl in *. apply andb_prop in H as [Hc Hs].
  destruct (Ascii.eqb c NUL) eqn:E.
  - apply Ascii.eqb_eq in E. congruence.
  - now rewrite IH.
Qed.

(** The copy of a matched group into its field: [len] is the length of
    the group plus one, cut down to the size of the field. *)
Lemma copy_into_field (cls : ascii -> bool) (field_size : nat) (text rest : string) :
  cls NUL = false ->
  all_in cls text = true ->
  0 < field_size ->
  let len := String.length text + 1 in
  let len := if Nat.ltb field_size len then field_size else len in
  store_chars field_size (g_strlcpy_stores (text ++ rest) len) =
    Returns (first_chars (field_size - 1) text).
Proof.
  intros HN HA Hpos. cbv zeta. unfold store_chars, g_strlcpy_stores.
  destruct (Nat.ltb field_size (String.length text + 1)) eqn:L.
  - apply Nat.ltb_lt in L.
    destruct field_size as [|room]; [lia|].
    rewrite first_chars_app_le by lia.
    rewrite length_app, length_list_ascii_of_string, length_first_chars.
    cbn [List.length].
    replace (Nat.leb (Nat.min room (String.length text) + 1) (S room)) with true
      by (symmetry; apply Nat.leb_le; lia).
    rewrite (c_string_of_stored cls) by auto using all_in_first_chars.
    now rewrite Nat.sub_succ, Nat.sub_0_r.
  - apply Nat.ltb_ge in L.
    rewrite Nat.add_1_r, first_chars_app.
    rewrite length_app, length_list_ascii_of_string. cbn [List.length].
    replace (Nat.leb (String.length text + 1) field_size) with true
      by (symmetry; apply Nat.leb_le; lia).
    rewrite (c_string_of_stored cls) by assumption.
    now rewrite first_chars_all by lia.
Qed.

Lemma class_rejects_NUL :
  host_class NUL = false /\ ip_class NUL = false.
Proof. split; reflexivity. Qed.

(** From a match to the log entry: the fields hold the first 255
    characters of the host and the first 63 of the address, and the port
    is what [atoi] reads from the start of the third group. *)
Lemma sdn_dest_pasv_found (before host ip port rest description : string)
  (log : list log_entry) :
  descriptor_at before host ip port rest description ->
  regexec description =
    Some (group_offsets (String.length before)
            (String.length host) (String.length ip) (String.length port)) ->
  sdn_dest_pasv description log =
    Returns (log ++ [(G_LOG_LEVEL_WARNING,
                      Got_endpoint (first_chars (sizeof_ip - 1) ip)
                        (atoi (port ++ rest))
                        (first_chars (sizeof_host - 1) host))])%list.
Proof.
  intros [E (Hh & Ah & Hi & Ai & Hp & Ap)] R.
  unfold sdn_dest_pasv. rewrite R.
  unfold group_offsets. cbn [nth rm_so rm_eo].
  set (b := String.length before).
  set (h := String.length host).
  set (i := String.length ip).
  replace (b + h - b) with h by lia.
  replace (b + h + 2 + i - (b + h + 2)) with i by lia.
  assert (O1 : offset description b = host ++ ":[" ++ ip ++ "]:" ++ port ++ rest)
    by (rewrite E; apply offset_app).
  assert (O2 : offset description (b + h + 2) = ip ++ "]:" ++ port ++ rest).
  { rewrite <- Nat.add_assoc, offset_add, O1, offset_add, offset_app. reflexivity. }
  assert (O3 : offset description (b + h + 2 + i + 2) = port ++ rest).
  { rewrite <- Nat.add_assoc, offset_add, O2, offset_add, offset_app. reflexivity. }
  rewrite O1, O2, O3.
  pose proof class_rejects_NUL as [Nh Ni].
  rewrite (copy_into_field host_class sizeof_host host _ Nh Ah)
    by (unfold sizeof_host; lia).
  cbn [bind].
  rewrite (copy_into_field ip_class sizeof_ip ip _ Ni Ai)
    by (unfold sizeof_ip; lia).
  reflexivity.
Qed.

Lemma matched_text_at (before text rest : string) (eo : nat) :
  eo = String.length before + String.length text ->
  matched_text (before ++ text ++ rest)
    {| rm_so := String.length before; rm_eo := eo |} = text.
Proof.
  intros ->. unfold matched_text. cbn [rm_so rm_eo].
  rewrite substring_first_chars, offset_app.
  replace (String.length before + String.length text - String.length before)
    with (String.length text) by lia.
  apply first_chars_app.
Qed.

End Endpoint.

Section Port.

Lemma digit_value_nonneg (c : ascii) : (0 <= digit_value c)%Z.
Proof. unfold digit_value. lia. Qed.

Lemma decimal_value_nonneg (digits : string) : (0 <= decimal_value digits)%Z.
Proof.
  induction digits as [|d rest IH]; simpl; [lia|].
  pose proof (digit_value_nonneg d).
  assert (0 <= 10 ^ Z.of_nat (String.length rest))%Z by (apply Z.pow_nonneg; lia).
  nia.
Qed.

(** Reading digit by digit gives the positional value: the accumulator
    moves left by as many places as digits are read. *)
Lemma read_digits_value (port rest : string) (acc : Z) :
  all_in port_class port = true ->
  span port_class rest = 0 ->
  read_digits acc (port ++ rest) =
    (acc * 10 ^ Z.of_nat (String.length port) + decimal_value port)%Z.
Proof.
  intros Hp Hr. revert acc; induction port as [|d port IH]; intros acc.
  - cbn [append String.length decimal_value]. rewrite Z.pow_0_r.
    destruct rest as [|c rest]; cbn [read_digits]; [lia|].
    cbn [span] in Hr. unfold port_class in Hr. unfold isdigit.
    destruct (in_range "0" "9" c); [discriminate | lia].
  - cbn [all_in] in Hp. apply andb_prop in Hp as [Hd Hp].
    cbn [append read_digits decimal_value String.length].
    unfold isdigit. unfold port_class in Hd. rewrite Hd.
    rewrite (IH Hp), Nat2Z.inj_succ, Z.pow_succ_r by lia. ring.
Qed.

Lemma strtol10_digit (c : ascii) (s : string) :
  isdigit c = true ->
  strtol10 (String c s) = clamp_long (read_digits 0 (String c s)).
Proof.
  destruct c as [[] [] [] [] [] [] [] []]; intros H;
    try discriminate H; reflexivity.
Qed.

(** [atoi] on a run of digits that denotes an [int]. *)
Lemma atoi_decimal (port rest : string) :
  port <> "" ->
  all_in port_class port = true ->
  span port_class rest = 0 ->
  (decimal_value port <= INT_MAX)%Z ->
  atoi (port ++ rest) = decimal_value port.
Proof.
  intros Hne Hp Hr Hmax.
  pose proof (decimal_value_nonneg port) as Hpos.
  assert (V : read_digits 0 (port ++ rest) = decimal_value port)
    by (rewrite (read_digits_value port rest 0 Hp Hr); lia).
  destruct port as [|d port]; [congruence|].
  unfold atoi. cbn [append] in *.
  rewrite strtol10_digit
    by (cbn [all_in] in Hp; apply andb_prop in Hp as [Hd _]; exact Hd).
  rewrite V. unfold clamp_long. widths.
  match goal with
  | |- context [Z.gtb ?a ?b] => destruct (Z.gtb_spec a b); [lia|]
  end.
  match goal with
  | |- context [Z.ltb ?a ?b] => destruct (Z.ltb_spec a b); [lia|]
  end.
  rewrite Z.mod_small; lia.
Qed.

End Port.

Lemma pasv_descriptor_match_here (host ip port text : string) :
  pasv_descriptor host ip port text ->
  match_here text = Some (String.length host, String.length ip, String.length port).
Proof.
  intros [-> G].
  pose proof (match_here_complete host ip port "" G) as M.
  rewrite app_nil_r_s in M. cbn [span] in M. now rewrite Nat.add_0_r in M.
Qed.

(** C4, as amended: for every description of the exact form
    [<host>:[<ip>]:<port>] with the three character classes, a host shorter
    than the 256 bytes of its field, an address shorter than the 64 bytes of
    its field and a port that denotes an [int], [sdn_dest_pasv] finds the
    three components and logs them, the port as the number its digits
    denote in base 10. *)
Theorem pasv_descriptor_parses (host ip port text : string) (log : list log_entry) :
  pasv_descriptor host ip port text ->
  String.length host < sizeof_host ->
  String.length ip < sizeof_ip ->
  (decimal_value port <= INT_MAX)%Z ->
  sdn_dest_pasv text log =
    Returns (log ++ [(G_LOG_LEVEL_WARNING,
                      Got_endpoint ip (decimal_value port) host)])%list.
Proof.
  intros D Lh Li Lp.
  pose proof (pasv_descriptor_match_here _ _ _ _ D) as M.
  destruct D as [E G].
  assert (At : descriptor_at "" host ip port "" text).
  { split; [|exact G]. cbn [append]. now rewrite app_nil_r_s. }
  rewrite (sdn_dest_pasv_found "" host ip port "" text log At)
    by (unfold regexec; now apply regexec_from_here).
  destruct G as (_ & _ & _ & _ & Hp & Ap).
  rewrite (atoi_decimal port "" Hp Ap eq_refl Lp).
  rewrite !first_chars_all by lia.
  reflexivity.
Qed.

Lemma pasv_descriptor_parses_witness :
  (pasv_descriptor "ftpnode1" "192.168.1.10" "20000" "ftpnode1:[192.168.1.10]:20000"
   /\ sdn_dest_pasv "ftpnode1:[192.168.1.10]:20000" [] =
        Returns [(G_LOG_LEVEL_WARNING, Got_endpoint "192.168.1.10" 20000 "ftpnode1")])
  /\ (pasv_descriptor "ftpnode1" "2001:db8::1" "20000" "ftpnode1:[2001:db8::1]:20000"
      /\ sdn_dest_pasv "ftpnode1:[2001:db8::1]:20000" [] =
           Returns [(G_LOG_LEVEL_WARNING, Got_endpoint "2001:db8::1" 20000 "ftpnode1")]).
Proof.
  assert (D4 : pasv_descriptor "ftpnode1" "192.168.1.10" "20000"
                 "ftpnode1:[192.168.1.10]:20000")
    by (split; [reflexivity | repeat split; (discriminate || reflexivity)]).
  assert (D6 : pasv_descriptor "ftpnode1" "2001:db8::1" "20000"
                 "ftpnode1:[2001:db8::1]:20000")
    by (split; [reflexivity | repeat split; (discriminate || reflexivity)]).
  assert (Lh : String.length "ftpnode1" < sizeof_host) by (vm_compute; lia).
  assert (L4 : String.length "192.168.1.10" < sizeof_ip) by (vm_compute; lia).
  assert (L6 : String.length "2001:db8::1" < sizeof_ip) by (vm_compute; lia).
  assert (Lp : (decimal_value "20000" <= INT_MAX)%Z) by (vm_compute; discriminate).
  split; (split; [assumption|]).
  - exact (pasv_descriptor_parses _ _ _ _ [] D4 Lh L4 Lp).
  - exact (pasv_descriptor_parses _ _ _ _ [] D6 Lh L6 Lp).
Defined.

(** C4 as stated fails: a host of 300 letters is of the host class, the
    description has the exact form, and the host that is logged is its
    first 255 letters.  Likewise a port of eleven digits has the exact
    form and denotes a number that no [int] holds. *)
Lemma pasv_long_host_is_cut :
  let text := Scenario.long_host ++ ":[1.2.3.4]:80" in
  pasv_descriptor Scenario.long_host "1.2.3.4" "80" text
  /\ sdn_dest_pasv text [] =
       Returns [(G_LOG_LEVEL_WARNING,
                 Got_endpoint "1.2.3.4" 80 (first_chars 255 Scenario.long_host))]
  /\ sdn_dest_pasv text [] <>
       Returns [(G_LOG_LEVEL_WARNING, Got_endpoint "1.2.3.4" 80 Scenario.long_host)]
  /\ pasv_descriptor "h" "1" "99999999999" "h:[1]:99999999999"
  /\ decimal_value "99999999999" = 99999999999%Z
  /\ sdn_dest_pasv "h:[1]:99999999999" [] =
       Returns [(G_LOG_LEVEL_WARNING, Got_endpoint "1" 1215752191 "h")].
Proof.
  intros text. split; [|split; [|split; [|split; [|split]]]].
  - split; [reflexivity|]. repeat split; try discriminate; vm_compute; reflexivity.
  - vm_compute. reflexivity.
  - vm_compute. intros H.
    apply (f_equal (fun o => match o with
                             | Returns [(_, Got_endpoint _ _ h)] => String.length h
                             | _ => 0
                             end)) in H.
    vm_compute in H. discriminate H.
  - split; [reflexivity|]. repeat split; (discriminate || reflexivity).
  - reflexivity.
  - reflexivity.
Qed.

(** C5, as amended: for every description that holds no text of the form
    [<host>:[<ip>]:<port>] anywhere, the listener returns on a passive-mode
    event with the session as it was and one more log entry, at critical
    level, that names the description; no endpoint is logged. *)
Theorem pasv_without_descriptor_is_logged
  {gfal2_context_t : Type}
  (gfal2_stat : gfal2_context_t -> option string -> stat_result)
  (gfal2_parse_uri : option string -> option gfal2_uri)
  (d : string) (data : sdn_t gfal2_context_t) (log : list log_entry) :
  ~ contains_pasv_descriptor d ->
  sdn_event_listener gfal2_stat gfal2_parse_uri
    {| stage := GFAL_GRIDFTP_PASV_STAGE_QUARK; description := d |} (data, log) =
    Returns (data, (log ++ [(G_LOG_LEVEL_CRITICAL, Could_not_be_parsed d)])%list).
Proof.
  intros H. apply regexec_none_iff in H.
  unfold sdn_event_listener, sdn_dest_pasv. cbn [stage description].
  now rewrite H.
Qed.

Lemma pasv_without_descriptor_is_logged_witness :
  ~ contains_pasv_descriptor "not-a-valid-descriptor"
  /\ sdn_event_listener Scenario.stat Scenario.parse_uri
       (Scenario.event GFAL_GRIDFTP_PASV_STAGE_QUARK "not-a-valid-descriptor")
       Scenario.start =
       Returns (sdn_create_data tt,
                [(G_LOG_LEVEL_CRITICAL, Could_not_be_parsed "not-a-valid-descriptor")]).
Proof.
  assert (H : ~ contains_pasv_descriptor "not-a-valid-descriptor")
    by (apply regexec_none_iff; reflexivity).
  split; [exact H|].
  exact (pasv_without_descriptor_is_logged Scenario.stat Scenario.parse_uri
           "not-a-valid-descriptor" (sdn_create_data tt) [] H).
Defined.

(** C5 as stated fails: a description that is not of the form
    [<host>:[<ip>]:<port>], because text surrounds the descriptor, is
    parsed all the same and its endpoint is logged. *)
Lemma pasv_descriptor_inside_text :
  let d := "Entering Passive Mode ftpnode1:[192.168.1.10]:20000." in
  ~ matches_pasv_grammar d
  /\ sdn_dest_pasv d [] =
       Returns [(G_LOG_LEVEL_WARNING, Got_endpoint "192.168.1.10" 20000 "ftpnode1")].
Proof.
  intros d. split; [|reflexivity].
  intros (host & ip & port & D).
  apply pasv_descriptor_match_here in D. discriminate D.
Qed.

(** C9: for every description in which [regexec] finds a match, the host
    and the address that [sdn_dest_pasv] keeps are the matched texts cut
    to 255 and 63 characters; with their NUL they fit the 256 and 64 bytes
    of their fields, filling them when the matched text is that long or
    longer; no store goes past a field, and the entry is logged at the same
    warning level as for any other endpoint. *)
Theorem pasv_fields_hold_truncated_groups
  (d : string) (matches : list regmatch_t) (log : list log_entry) :
  regexec d = Some matches ->
  let matched_host := matched_text d (nth 1 matches no_match) in
  let matched_ip := matched_text d (nth 2 matches no_match) in
  let host := first_chars (sizeof_host - 1) matched_host in
  let ip := first_chars (sizeof_ip - 1) matched_ip in
  let port := atoi (offset d (rm_so (nth 3 matches no_match))) in
  sdn_dest_pasv d log =
    Returns (log ++ [(G_LOG_LEVEL_WARNING, Got_endpoint ip port host)])%list
  /\ String.length host + 1 <= sizeof_host
  /\ String.length ip + 1 <= sizeof_ip
  /\ (sizeof_host <= String.length matched_host + 1 ->
      String.length host + 1 = sizeof_host)
  /\ (sizeof_ip <= String.length matched_ip + 1 ->
      String.length ip + 1 = sizeof_ip)
  /\ (String.length matched_host < sizeof_host -> host = matched_host)
  /\ (String.length matched_ip < sizeof_ip -> ip = matched_ip).
Proof.
  intros R. pose proof R as R'. unfold regexec in R'.
  apply regexec_from_found in R'
    as (before & host & ip & port & rest & At & Sp & -> & _).
  cbn [Nat.add] in *.
  pose proof (sdn_dest_pasv_found before host ip port rest d log At R) as Run.
  destruct At as [E G]. unfold group_offsets. cbn [nth rm_so rm_eo].
  assert (Mh : matched_text d
                 {| rm_so := String.length before;
                    rm_eo := String.length before + String.length host |} = host)
    by (rewrite E; now apply matched_text_at).
  assert (Mi : matched_text d
                 {| rm_so := String.length before + String.length host + 2;
                    rm_eo := String.length before + String.length host + 2
                             + String.length ip |} = ip).
  { rewrite E.
    replace (before ++ host ++ ":[" ++ ip ++ "]:" ++ port ++ rest)
      with ((before ++ host ++ ":[") ++ ip ++ ("]:" ++ port ++ rest))
      by (now rewrite !app_assoc_s).
    replace (String.length before + String.length host + 2)
      with (String.length (before ++ host ++ ":["))
      by (rewrite !length_app_s; cbn [String.length]; lia).
    now apply matched_text_at. }
  assert (Op : offset d (String.length before + String.length host + 2
                         + String.length ip + 2) = port ++ rest).
  { rewrite E.
    replace (before ++ host ++ ":[" ++ ip ++ "]:" ++ port ++ rest)
      with ((before ++ host ++ ":[" ++ ip ++ "]:") ++ port ++ rest)
      by (now rewrite !app_assoc_s).
    replace (String.length before + String.length host + 2 + String.length ip + 2)
      with (String.length (before ++ host ++ ":[" ++ ip ++ "]:"))
      by (rewrite !length_app_s; cbn [String.length]; lia).
    apply offset_app. }
  cbv zeta. rewrite Mh, Mi, Op, !length_first_chars.
  unfold sizeof_host, sizeof_ip in *.
  split; [exact Run|].
  repeat split; intros; try lia; apply first_chars_all; lia.
Qed.

Lemma pasv_fields_hold_truncated_groups_witness :
  let d := Scenario.long_host ++ ":[1.2.3.4]:80" in
  regexec d = Some (group_offsets 0 300 7 2)
  /\ sdn_dest_pasv d [] =
       Returns [(G_LOG_LEVEL_WARNING,
                 Got_endpoint "1.2.3.4" 80 (first_chars 255 Scenario.long_host))]
  /\ String.length (first_chars 255 Scenario.long_host) + 1 = sizeof_host.
Proof.
  intros d.
  assert (R : regexec d = Some (group_offsets 0 300 7 2)) by (vm_compute; reflexivity).
  split; [exact R|]. split; [|vm_compute; reflexivity].
  exact (proj1 (pasv_fields_hold_truncated_groups d _ [] R)).
Defined.

(** C7, on the code: the empty description holds no separator, and on it
    [g_strsplit] gives the empty vector, whose only slot is the NULL at
    index 0; [sdn_create_pair] reads [splitted[1]], past that NULL.  The
    behaviour is undefined and the listener records no pair. *)
Theorem sdn_create_pair_empty_description
  {gfal2_context_t : Type}
  (gfal2_stat : gfal2_context_t -> option string -> stat_result)
  (gfal2_parse_uri : option string -> option gfal2_uri)
  (st : session gfal2_context_t) :
  ~ occurs_in " => " ""
  /\ g_strsplit "" " => " 2 = []
  /\ sdn_create_pair "" = Undefined ReadPastVectorEnd
  /\ sdn_event_listener gfal2_stat gfal2_parse_uri
       {| stage := GFAL_EVENT_LIST_ITEM; description := "" |} st =
       Undefined ReadPastVectorEnd.
Proof.
  split; [apply strstr_none; reflexivity|].
  split; [reflexivity|]. split; [reflexivity|].
  now destruct st.
Qed.

(** A non-empty description without separator is recorded as the pair of
    the whole description and no destination, after the pairs already
    held. *)
Lemma listener_records_degenerate_pair
  {gfal2_context_t : Type}
  (gfal2_stat : gfal2_context_t -> option string -> stat_result)
  (gfal2_parse_uri : option string -> option gfal2_uri)
  (d : string) (data : sdn_t gfal2_context_t) (log : list log_entry) :
  d <> "" ->
  ~ occurs_in " => " d ->
  sdn_event_listener gfal2_stat gfal2_parse_uri
    {| stage := GFAL_EVENT_LIST_ITEM; description := d |} (data, log) =
    Returns
      (with_pairs data
         (pairs data ++ [ {| source := Some d; destination := None |} ])%list,
       log).
Proof.
  intros Hne H. apply listener_list_item.
  now apply sdn_create_pair_no_separator.
Qed.

(* ================================================================== *)
(** * Further properties of the pair parser                             *)
(* ================================================================== *)

Section PairRoundTrip.

Lemma prefix_first_chars (needle x : string) (k : nat) :
  prefix needle (first_chars k x) = true -> prefix needle x = true.
Proof.
  intros H. apply prefix_true_iff in H as [r E]. apply prefix_true_iff.
  exists (r ++ offset x k).
  rewrite <- app_assoc_s, <- E. symmetry. apply first_chars_offset.
Qed.

Lemma occurs_in_empty (needle : string) : needle <> "" -> ~ occurs_in needle "".
Proof.
  intros Hn (b & a & E). apply (f_equal String.length) in E.
  rewrite !length_app_s in E. apply length_pos_s in Hn. cbn in E. lia.
Qed.

(** The text before the first occurrence holds no occurrence. *)
Lemma strstr_before (s needle : string) (i : nat) :
  needle <> "" ->
  strstr s needle = Some i ->
  ~ occurs_in needle (first_chars i s).
Proof.
  intros Hn. revert i; induction s as [|c s IH]; intros i; cbn [strstr].
  - destruct (prefix needle ""); [|discriminate].
    intros [= <-]. now apply occurs_in_empty.
  - destruct (prefix needle (String c s)) eqn:P.
    + intros [= <-]. now apply occurs_in_empty.
    + destruct (strstr s needle) as [k|] eqn:K; [|discriminate].
      intros [= <-]. cbn [first_chars]. intros O.
      apply occurs_in_head in O as [O|O].
      * apply (prefix_first_chars needle (String c s) (S k)) in O. congruence.
      * now apply (IH k).
Qed.

(** What [sdn_create_pair] does, by the shape of the description. *)
Lemma sdn_create_pair_cases (d : string) :
  (d = "" /\ sdn_create_pair d = Undefined ReadPastVectorEnd)
  \/ (d <> "" /\ ~ occurs_in " => " d
      /\ sdn_create_pair d = Returns {| source := Some d; destination := None |})
  \/ (exists i,
        strstr d " => " = Some i
        /\ sdn_create_pair d =
             Returns {| source := Some (first_chars i d);
                        destination := Some (offset d (i + 4)) |}).
Proof.
  destruct d as [|c d]; [left; now split|]. right.
  destruct (strstr (String c d) " => ") as [i|] eqn:E.
  - right. exists i. split; [reflexivity|]. now apply sdn_create_pair_at_strstr.
  - left. apply strstr_none in E. split; [discriminate|]. split; [exact E|].
    now apply sdn_create_pair_no_separator.
Qed.

End PairRoundTrip.

(** X1: a pair that [sdn_create_pair] returns stands for the description
    it was made from: its source holds no separator, joining the source,
    the separator and the destination gives the description back, and the
    destination is missing exactly when the description holds no
    separator. *)
Theorem sdn_create_pair_round_trip (d : string) (p : pair_t) :
  sdn_create_pair d = Returns p ->
  parsed_pair p
  /\ pair_description p = Some d
  /\ (destination p = None <-> ~ occurs_in " => " d).
Proof.
  intros H.
  destruct (sdn_create_pair_cases d) as [[_ U] | [(Hne & Hno & R) | (i & Hi & R)]];
    rewrite H in *.
  - discriminate U.
  - injection R as ->. split; [now exists d|].
    split; [reflexivity|]. now split.
  - injection R as ->. unfold parsed_pair, pair_description. cbn [source destination].
    split; [|split].
    + exists (first_chars i d). split; [reflexivity|].
      apply (strstr_before d " => " i); [discriminate | exact Hi].
    + f_equal. symmetry. apply (strstr_found d " => " i Hi).
    + split; [discriminate|]. intros Hno.
      apply strstr_none in Hno. congruence.
Qed.

Lemma sdn_create_pair_round_trip_witness :
  let p := {| source := Some "gsiftp://a/x"; destination := Some "gsiftp://b/y => z" |} in
  sdn_create_pair "gsiftp://a/x => gsiftp://b/y => z" = Returns p
  /\ pair_description p = Some "gsiftp://a/x => gsiftp://b/y => z".
Proof.
  intros p.
  assert (H : sdn_create_pair "gsiftp://a/x => gsiftp://b/y => z" = Returns p)
    by reflexivity.
  split; [exact H|].
  exact (proj1 (proj2 (sdn_create_pair_round_trip _ p H))).
Defined.

(** X2: [sdn_create_pair] returns a pair for every description but the
    empty one. *)
Theorem sdn_create_pair_returns_iff (d : string) :
  (exists p, sdn_create_pair d = Returns p) <-> d <> "".
Proof.
  destruct (sdn_create_pair_cases d) as [[E U] | [(Hne & _ & R) | (i & Hi & R)]].
  - split; [|congruence]. intros [p H]. congruence.
  - split; [intros _; exact Hne | intros _; eauto].
  - split; [|intros _; eauto].
    intros _ ->. discriminate Hi.
Qed.

(* ================================================================== *)
(** * Further properties of the dispatcher                              *)
(* ================================================================== *)

Section Session.

Context {gfal2_context_t : Type}.
Variable gfal2_stat : gfal2_context_t -> option string -> stat_result.
Variable gfal2_parse_uri : option string -> option gfal2_uri.

Local Abbreviation listener := (sdn_event_listener gfal2_stat gfal2_parse_uri).
Local Abbreviation run := (deliver gfal2_stat gfal2_parse_uri).

Lemma deliver_app (es1 es2 : list gfalt_event_t) (st : session gfal2_context_t) :
  run (es1 ++ es2)%list st = (st' <- run es1 st ;; run es2 st').
Proof.
  revert st; induction es1 as [|e es1 IH]; intros st; cbn [app deliver bind].
  - reflexivity.
  - destruct (listener e st) as [st1|ub]; cbn [bind]; [apply IH | reflexivity].
Qed.

(** The entries that a size pass and the notification after it add. *)
Lemma listener_list_exit_wraps (d : string) (first : pair_t) (rest : list pair_t)
  (ctx : gfal2_context_t) (total : Z) (log : list log_entry) (src dst : gfal2_uri) :
  gfal2_parse_uri (source first) = Some src ->
  gfal2_parse_uri (destination first) = Some dst ->
  listener {| stage := GFAL_EVENT_LIST_EXIT; description := d |}
    ({| pairs := first :: rest; context := ctx; total_size := total |}, log) =
    Returns
      ({| pairs := first :: rest; context := ctx;
          total_size := off_t_wrap (sum_of_sizes gfal2_stat ctx (first :: rest)) |},
       ((log ++ map (failure_entry gfal2_stat ctx)
                  (failed_pairs gfal2_stat ctx (first :: rest)))
        ++ [(G_LOG_LEVEL_WARNING,
             Between_hosts (host src) (host dst)
               (Z.of_nat (List.length (first :: rest)))
               (off_t_wrap (sum_of_sizes gfal2_stat ctx (first :: rest))))])%list).
Proof.
  intros Hs Hd.
  rewrite (listener_list_exit gfal2_stat gfal2_parse_uri d first rest ctx total log
             src dst Hs Hd).
  now rewrite calculate_the_size_wraps.
Qed.

(** A BatchExit that returns had a first pair and two URIs. *)
Lemma listener_list_exit_inv (d : string) (data data' : sdn_t gfal2_context_t)
  (log log' : list log_entry) :
  listener {| stage := GFAL_EVENT_LIST_EXIT; description := d |} (data, log) =
    Returns (data', log') ->
  exists first rest src dst,
    pairs data = first :: rest
    /\ gfal2_parse_uri (source first) = Some src
    /\ gfal2_parse_uri (destination first) = Some dst.
Proof.
  destruct data as [[|first rest] ctx total].
  - now rewrite listener_list_exit_empty.
  - destruct (gfal2_parse_uri (source first)) as [src|] eqn:Hs.
    + destruct (gfal2_parse_uri (destination first)) as [dst|] eqn:Hd.
      * intros _. now exists first, rest, src, dst.
      * rewrite listener_list_exit_no_uri by now right. discriminate.
    + rewrite listener_list_exit_no_uri by now left. discriminate.
Qed.

Lemma sdn_dest_pasv_returns (d : string) (log : list log_entry) :
  exists entry, sdn_dest_pasv d log = Returns (log ++ [entry])%list.
Proof.
  destruct (regexec d) as [matches|] eqn:R.
  - pose proof R as R'. unfold regexec in R'.
    apply regexec_from_found in R'
      as (before & host & ip & port & rest & At & _ & -> & _).
    eexists. now apply (sdn_dest_pasv_found before host ip port rest d log At).
  - eexists. unfold sdn_dest_pasv. now rewrite R.
Qed.

(** One event: the context stays, the log is extended, and the registry
    is emptied, extended by the item's pair, or kept. *)
Lemma listener_step (e : gfalt_event_t) (data data' : sdn_t gfal2_context_t)
  (log log' : list log_entry) :
  listener e (data, log) = Returns (data', log') ->
  context data' = context data
  /\ (exists new, log' = (log ++ new)%list)
  /\ (pairs data' = []
      \/ pairs data' = pairs data
      \/ exists item, sdn_create_pair (description e) = Returns item
                      /\ pairs data' = (pairs data ++ [item])%list).
Proof.
  destruct e as [stg d]. destruct stg.
  - rewrite listener_list_enter. intros [= <- <-].
    split; [reflexivity|]. split; [exists []; now rewrite app_nil_r | now left].
  - unfold sdn_event_listener. cbn [stage description].
    destruct (sdn_create_pair d) as [item|] eqn:E; cbn [bind]; [|discriminate].
    intros [= <- <-].
    split; [reflexivity|]. split; [exists []; now rewrite app_nil_r|].
    right; right. now exists item.
  - intros H. pose proof (listener_list_exit_inv _ _ _ _ _ H)
      as (first & rest & src & dst & Hp & Hs & Hd).
    destruct data as [ps ctx total]. cbn [pairs] in Hp. subst ps.
    rewrite (listener_list_exit_wraps d first rest ctx total log src dst Hs Hd) in H.
    injection H as <- <-. cbn [context pairs].
    split; [reflexivity|]. split; [|now right; left].
    eexists. now rewrite <- app_assoc.
  - unfold sdn_event_listener. cbn [stage description].
    destruct (sdn_dest_pasv_returns d log) as [entry ->]. cbn [bind].
    intros [= <- <-].
    split; [reflexivity|]. split; [now exists [entry] | now right; left].
  - intros [= <- <-].
    split; [reflexivity|]. split; [exists []; now rewrite app_nil_r | now right; left].
Qed.

(** The items of a batch, one after the other. *)
Lemma deliver_items (ds : list string) (ps : list pair_t)
  (data : sdn_t gfal2_context_t) (log : list log_entry) :
  Forall2 (fun d p => sdn_create_pair d = Returns p) ds ps ->
  run (list_items ds) (data, log) =
    Returns (with_pairs data (pairs data ++ ps)%list, log).
Proof.
  intros H. revert data; induction H as [|d p ds ps Hd _ IH]; intros data.
  - cbn [list_items map deliver]. rewrite app_nil_r.
    now destruct data.
  - cbn [list_items map deliver].
    rewrite (listener_list_item gfal2_stat gfal2_parse_uri d p data log Hd).
    cbn [bind]. fold (list_items ds). rewrite IH.
    unfold with_pairs. cbn [pairs context total_size].
    now rewrite <- app_assoc.
Qed.

End Session.

Lemma sdn_create_pair_parsed (d : string) (p : pair_t) :
  sdn_create_pair d = Returns p -> parsed_pair p.
Proof.
  intros H.
  destruct (sdn_create_pair_cases d) as [[_ U] | [(_ & Hno & R) | (i & Hi & R)]];
    rewrite H in *; [discriminate U | |]; injection R as ->.
  - now exists d.
  - exists (first_chars i d). split; [reflexivity|].
    apply (strstr_before d " => " i); [discriminate | exact Hi].
Qed.

(** X3: a BatchExit on a registry of [n >= 1] pairs whose first pair gives
    two URIs, every running total being within [off_t], returns with the
    registry as it was, [total_size] set to the sum of the successful
    sizes, and the log extended by the error entries of the failed lookups,
    in registry order, followed by one notification: the hosts of the two
    URIs, [n] files (failed lookups included) and that sum. *)
Theorem batch_exit_notifies
  {gfal2_context_t : Type}
  (gfal2_stat : gfal2_context_t -> option string -> stat_result)
  (gfal2_parse_uri : option string -> option gfal2_uri)
  (first : pair_t) (rest : list pair_t) (ctx : gfal2_context_t) (total : Z)
  (log : list log_entry) (src dst : gfal2_uri) (d : string) :
  gfal2_parse_uri (source first) = Some src ->
  gfal2_parse_uri (destination first) = Some dst ->
  running_totals_fit gfal2_stat ctx (first :: rest) ->
  sdn_event_listener gfal2_stat gfal2_parse_uri
    {| stage := GFAL_EVENT_LIST_EXIT; description := d |}
    ({| pairs := first :: rest; context := ctx; total_size := total |}, log) =
    Returns
      ({| pairs := first :: rest; context := ctx;
          total_size := sum_of_sizes gfal2_stat ctx (first :: rest) |},
       (log
        ++ map (failure_entry gfal2_stat ctx) (failed_pairs gfal2_stat ctx (first :: rest))
        ++ [(G_LOG_LEVEL_WARNING,
             Between_hosts (host src) (host dst)
               (Z.of_nat (List.length (first :: rest)))
               (sum_of_sizes gfal2_stat ctx (first :: rest)))])%list).
Proof.
  intros Hs Hd Hfit.
  rewrite (listener_list_exit_wraps gfal2_stat gfal2_parse_uri d first rest ctx total
             log src dst Hs Hd).
  rewrite (running_totals_fit_wrap gfal2_stat ctx (first :: rest) Hfit).
  now rewrite <- app_assoc.
Qed.

Lemma batch_exit_notifies_witness :
  let first := {| source := Some "fileX"; destination := Some "fileY" |} in
  let rest := [ {| source := Some "fileA"; destination := None |};
                {| source := Some "fileC"; destination := Some "fileD" |} ] in
  Scenario.parse_uri (source first) = Some {| host := Some "fileX" |}
  /\ Scenario.parse_uri (destination first) = Some {| host := Some "fileY" |}
  /\ running_totals_fit Scenario.stat tt (first :: rest)
  /\ sdn_event_listener Scenario.stat Scenario.parse_uri
       (Scenario.event GFAL_EVENT_LIST_EXIT "")
       ({| pairs := first :: rest; context := tt; total_size := 5 |}, []) =
       Returns
         ({| pairs := first :: rest; context := tt; total_size := 300 |},
          [ (G_LOG_LEVEL_ERROR,
             Could_not_stat (Some "fileX") "No such file or directory");
            (G_LOG_LEVEL_WARNING,
             Between_hosts (Some "fileX") (Some "fileY") 3 300) ]).
Proof.
  intros first rest.
  assert (Hfit : running_totals_fit Scenario.stat tt (first :: rest))
    by (intros [|[|[|[|n]]]]; vm_compute; split; discriminate).
  split; [reflexivity|]. split; [reflexivity|]. split; [exact Hfit|].
  exact (batch_exit_notifies Scenario.stat Scenario.parse_uri first rest tt 5 []
           {| host := Some "fileX" |} {| host := Some "fileY" |} ""
           eq_refl eq_refl Hfit).
Defined.

(** X4: a BatchExit returns exactly when the registry has a first pair and
    the URI parser gives a URI for its source and one for its destination;
    in every other case it reads through a NULL pointer. *)
Theorem batch_exit_returns_iff
  {gfal2_context_t : Type}
  (gfal2_stat : gfal2_context_t -> option string -> stat_result)
  (gfal2_parse_uri : option string -> option gfal2_uri)
  (data : sdn_t gfal2_context_t) (log : list log_entry) (d : string) :
  let outcome_of_exit :=
    sdn_event_listener gfal2_stat gfal2_parse_uri
      {| stage := GFAL_EVENT_LIST_EXIT; description := d |} (data, log) in
  ((exists first rest src dst,
      pairs data = first :: rest
      /\ gfal2_parse_uri (source first) = Some src
      /\ gfal2_parse_uri (destination first) = Some dst)
   <-> returns outcome_of_exit = true)
  /\ (returns outcome_of_exit = false -> outcome_of_exit = Undefined NullDereference).
Proof.
  cbv zeta. destruct data as [[|first rest] ctx total].
  - rewrite listener_list_exit_empty. cbn [returns pairs].
    split; [split|reflexivity]; [|discriminate].
    intros (? & ? & ? & ? & E & _). discriminate E.
  - destruct (gfal2_parse_uri (source first)) as [src|] eqn:Hs;
      [destruct (gfal2_parse_uri (destination first)) as [dst|] eqn:Hd|].
    + rewrite (listener_list_exit_wraps gfal2_stat gfal2_parse_uri d first rest ctx
                 total log src dst Hs Hd).
      cbn [returns pairs]. split; [split|discriminate]; [reflexivity|].
      intros _. now exists first, rest, src, dst.
    + rewrite listener_list_exit_no_uri by now right. cbn [returns pairs].
      split; [split|reflexivity]; [|discriminate].
      intros (f & r & s & t & [= <- <-] & _ & Ht). congruence.
    + rewrite listener_list_exit_no_uri by now left. cbn [returns pairs].
      split; [split|reflexivity]; [|discriminate].
      intros (f & r & s & t & [= <- <-] & Hs' & _). congruence.
Qed.

(** X5: a second BatchExit right after one that returned leaves the
    session as the first one left it and logs the same entries again: the
    total is computed anew, not added to. *)
Theorem batch_exit_twice
  {gfal2_context_t : Type}
  (gfal2_stat : gfal2_context_t -> option string -> stat_result)
  (gfal2_parse_uri : option string -> option gfal2_uri)
  (data data1 : sdn_t gfal2_context_t) (log log1 : list log_entry) (d d' : string) :
  sdn_event_listener gfal2_stat gfal2_parse_uri
    {| stage := GFAL_EVENT_LIST_EXIT; description := d |} (data, log) =
    Returns (data1, log1) ->
  exists new,
    log1 = (log ++ new)%list
    /\ sdn_event_listener gfal2_stat gfal2_parse_uri
         {| stage := GFAL_EVENT_LIST_EXIT; description := d' |} (data1, log1) =
         Returns (data1, (log1 ++ new)%list).
Proof.
  intros H.
  pose proof (listener_list_exit_inv _ _ _ _ _ _ _ H)
    as (first & rest & src & dst & Hp & Hs & Hd).
  destruct data as [ps ctx total]. cbn [pairs] in Hp. subst ps.
  rewrite (listener_list_exit_wraps gfal2_stat gfal2_parse_uri d first rest ctx total
             log src dst Hs Hd) in H.
  injection H as <- <-.
  eexists. split; [now rewrite <- app_assoc|].
  rewrite (listener_list_exit_wraps gfal2_stat gfal2_parse_uri d' first rest ctx _
             _ src dst Hs Hd).
  now rewrite <- !app_assoc.
Qed.

Lemma batch_exit_twice_witness :
  let data : sdn_t unit :=
    {| pairs := [ {| source := Some "fileA"; destination := Some "fileB" |} ];
       context := tt; total_size := 0 |} in
  let data1 : sdn_t unit :=
    {| pairs := pairs data; context := tt; total_size := 100 |} in
  let note := (G_LOG_LEVEL_WARNING, Between_hosts (Some "fileA") (Some "fileB") 1 100) in
  sdn_event_listener Scenario.stat Scenario.parse_uri
    (Scenario.event GFAL_EVENT_LIST_EXIT "") (data, []) = Returns (data1, [note])
  /\ exists new,
       [note] = ([] ++ new)%list
       /\ sdn_event_listener Scenario.stat Scenario.parse_uri
            (Scenario.event GFAL_EVENT_LIST_EXIT "") (data1, [note]) =
            Returns (data1, ([note] ++ new)%list).
Proof.
  intros data data1 note.
  assert (H : sdn_event_listener Scenario.stat Scenario.parse_uri
                (Scenario.event GFAL_EVENT_LIST_EXIT "") (data, []) =
              Returns (data1, [note])) by reflexivity.
  split; [exact H|].
  exact (batch_exit_twice Scenario.stat Scenario.parse_uri data data1 [] [note] "" "" H).
Defined.

(** X6: item events append the pairs of their descriptions to the
    registry, in the order of arrival and after the pairs already held,
    and touch neither [total_size] nor the log; after a BatchEnter the
    registry holds the pairs of the items that followed and nothing else. *)
Theorem batch_items_in_order
  {gfal2_context_t : Type}
  (gfal2_stat : gfal2_context_t -> option string -> stat_result)
  (gfal2_parse_uri : option string -> option gfal2_uri)
  (ds : list string) (ps : list pair_t)
  (data : sdn_t gfal2_context_t) (log : list log_entry) (d0 : string) :
  Forall2 (fun d p => sdn_create_pair d = Returns p) ds ps ->
  deliver gfal2_stat gfal2_parse_uri (list_items ds) (data, log) =
    Returns ({| pairs := (pairs data ++ ps)%list; context := context data;
                total_size := total_size data |}, log)
  /\ deliver gfal2_stat gfal2_parse_uri
       ({| stage := GFAL_EVENT_LIST_ENTER; description := d0 |} :: list_items ds)
       (data, log) =
       Returns ({| pairs := ps; context := context data;
                   total_size := total_size data |}, log).
Proof.
  intros H. split.
  - now rewrite (deliver_items gfal2_stat gfal2_parse_uri ds ps data log H).
  - cbn [deliver]. rewrite listener_list_enter. cbn [bind].
    now rewrite (deliver_items gfal2_stat gfal2_parse_uri ds ps _ log H).
Qed.

Lemma batch_items_in_order_witness :
  let ds := [ "fileA => fileB"; "fileC" ] in
  let ps := [ {| source := Some "fileA"; destination := Some "fileB" |};
              {| source := Some "fileC"; destination := None |} ] in
  let old := {| source := Some "old"; destination := None |} in
  let data : sdn_t unit := {| pairs := [old]; context := tt; total_size := 9 |} in
  Forall2 (fun d p => sdn_create_pair d = Returns p) ds ps
  /\ deliver Scenario.stat Scenario.parse_uri (list_items ds) (data, []) =
       Returns ({| pairs := old :: ps; context := tt; total_size := 9 |}, [])
  /\ deliver Scenario.stat Scenario.parse_uri
       (Scenario.event GFAL_EVENT_LIST_ENTER "" :: list_items ds) (data, []) =
       Returns ({| pairs := ps; context := tt; total_size := 9 |}, []).
Proof.
  intros ds ps old data.
  assert (H : Forall2 (fun d p => sdn_create_pair d = Returns p) ds ps)
    by (repeat constructor).
  split; [exact H|].
  exact (batch_items_in_order Scenario.stat Scenario.parse_uri ds ps data [] "" H).
Defined.

(** X7: a whole batch, from any session: after BatchEnter, the items of
    [n >= 1] non-empty descriptions and BatchExit, when the first item's
    source and destination give URIs and every running total is within
    [off_t], the registry holds the [n] pairs of the items in order,
    [total_size] is the sum of the successful sizes, and the log is
    extended by the error entries of the failed lookups and then one
    notification with the two hosts, [n] files and that sum.  What the
    registry held before plays no part. *)
Theorem whole_batch_notifies
  {gfal2_context_t : Type}
  (gfal2_stat : gfal2_context_t -> option string -> stat_result)
  (gfal2_parse_uri : option string -> option gfal2_uri)
  (ds : list string) (first : pair_t) (rest : list pair_t)
  (data : sdn_t gfal2_context_t) (log : list log_entry)
  (src dst : gfal2_uri) (d0 d1 : string) :
  Forall2 (fun d p => sdn_create_pair d = Returns p) ds (first :: rest) ->
  gfal2_parse_uri (source first) = Some src ->
  gfal2_parse_uri (destination first) = Some dst ->
  running_totals_fit gfal2_stat (context data) (first :: rest) ->
  deliver gfal2_stat gfal2_parse_uri
    ({| stage := GFAL_EVENT_LIST_ENTER; description := d0 |}
       :: list_items ds
       ++ [ {| stage := GFAL_EVENT_LIST_EXIT; description := d1 |} ])%list
    (data, log) =
    Returns
      ({| pairs := first :: rest; context := context data;
          total_size := sum_of_sizes gfal2_stat (context data) (first :: rest) |},
       (log
        ++ map (failure_entry gfal2_stat (context data))
             (failed_pairs gfal2_stat (context data) (first :: rest))
        ++ [(G_LOG_LEVEL_WARNING,
             Between_hosts (host src) (host dst)
               (Z.of_nat (List.length ds))
               (sum_of_sizes gfal2_stat (context data) (first :: rest)))])%list).
Proof.
  intros Hds Hs Hd Hfit.
  cbn [deliver]. rewrite listener_list_enter. cbn [bind].
  rewrite deliver_app.
  rewrite (deliver_items gfal2_stat gfal2_parse_uri ds (first :: rest) _ log Hds).
  cbn [bind deliver]. unfold with_pairs. cbn [pairs context total_size app].
  rewrite (listener_list_exit_wraps gfal2_stat gfal2_parse_uri d1 first rest _ _
             log src dst Hs Hd).
  cbn [bind].
  rewrite (running_totals_fit_wrap gfal2_stat _ _ Hfit).
  rewrite (Forall2_length Hds), <- app_assoc. reflexivity.
Qed.

Lemma whole_batch_notifies_witness :
  let ds := [ "fileA => fileB"; "fileX => fileY"; "fileC => fileD" ] in
  let first := {| source := Some "fileA"; destination := Some "fileB" |} in
  let rest := [ {| source := Some "fileX"; destination := Some "fileY" |};
                {| source := Some "fileC"; destination := Some "fileD" |} ] in
  let data : sdn_t unit :=
    {| pairs := [ {| source := Some "old"; destination := None |} ];
       context := tt; total_size := 77 |} in
  Forall2 (fun d p => sdn_create_pair d = Returns p) ds (first :: rest)
  /\ running_totals_fit Scenario.stat (context data) (first :: rest)
  /\ deliver Scenario.stat Scenario.parse_uri
       (Scenario.event GFAL_EVENT_LIST_ENTER "" :: list_items ds
          ++ [ Scenario.event GFAL_EVENT_LIST_EXIT "" ])%list
       (data, []) =
       Returns
         ({| pairs := first :: rest; context := tt; total_size := 300 |},
          [ (G_LOG_LEVEL_ERROR,
             Could_not_stat (Some "fileX") "No such file or directory");
            (G_LOG_LEVEL_WARNING,
             Between_hosts (Some "fileA") (Some "fileB") 3 300) ]).
Proof.
  intros ds first rest data.
  assert (Hds : Forall2 (fun d p => sdn_create_pair d = Returns p) ds (first :: rest))
    by (repeat constructor).
  assert (Hfit : running_totals_fit Scenario.stat (context data) (first :: rest))
    by (intros [|[|[|[|n]]]]; vm_compute; split; discriminate).
  split; [exact Hds|]. split; [exact Hfit|].
  exact (whole_batch_notifies Scenario.stat Scenario.parse_uri ds first rest data []
           {| host := Some "fileA" |} {| host := Some "fileB" |} "" ""
           Hds eq_refl eq_refl Hfit).
Defined.

(** X8: whatever events a session is delivered, as long as the listener
    returns on each, the transfer context of the session is the one it
    started with and the log is only added to: what was logged stays, in
    place. *)
Theorem session_keeps_context_and_log
  {gfal2_context_t : Type}
  (gfal2_stat : gfal2_context_t -> option string -> stat_result)
  (gfal2_parse_uri : option string -> option gfal2_uri)
  (events : list gfalt_event_t)
  (data data' : sdn_t gfal2_context_t) (log log' : list log_entry) :
  deliver gfal2_stat gfal2_parse_uri events (data, log) = Returns (data', log') ->
  context data' = context data /\ exists new, log' = (log ++ new)%list.
Proof.
  revert data log; induction events as [|e events IH]; intros data log; cbn [deliver].
  - intros [= <- <-]. split; [reflexivity|]. exists []. now rewrite app_nil_r.
  - destruct (sdn_event_listener gfal2_stat gfal2_parse_uri e (data, log))
      as [[data1 log1]|] eqn:E; cbn [bind]; [|discriminate].
    intros H. apply IH in H as [Hc [new2 ->]].
    apply listener_step in E as (Hc1 & [new1 ->] & _).
    split; [congruence|]. exists (new1 ++ new2)%list. now rewrite app_assoc.
Qed.

Lemma session_keeps_context_and_log_witness :
  let events :=
    (Scenario.event GFAL_GRIDFTP_PASV_STAGE_QUARK "bad" :: Scenario.two_files)%list in
  let data' : sdn_t unit :=
    {| pairs := [ {| source := Some "fileA"; destination := Some "fileB" |};
                  {| source := Some "fileC"; destination := Some "fileD" |} ];
       context := tt; total_size := 300 |} in
  let log' :=
    [ (G_LOG_LEVEL_CRITICAL, Could_not_be_parsed "old");
      (G_LOG_LEVEL_CRITICAL, Could_not_be_parsed "bad");
      (G_LOG_LEVEL_WARNING, Between_hosts (Some "fileA") (Some "fileB") 2 300) ] in
  deliver Scenario.stat Scenario.parse_uri events
    (sdn_create_data tt, [(G_LOG_LEVEL_CRITICAL, Could_not_be_parsed "old")]) =
    Returns (data', log')
  /\ context data' = tt
  /\ exists new, log' = ([(G_LOG_LEVEL_CRITICAL, Could_not_be_parsed "old")] ++ new)%list.
Proof.
  intros events data' log'.
  assert (H : deliver Scenario.stat Scenario.parse_uri events
                (sdn_create_data tt, [(G_LOG_LEVEL_CRITICAL, Could_not_be_parsed "old")]) =
              Returns (data', log')) by reflexivity.
  split; [exact H|].
  exact (session_keeps_context_and_log Scenario.stat Scenario.parse_uri events
           _ data' _ log' H).
Defined.

(** X9: passive-mode events and events of unrecognised stages never make
    the listener fail and never touch the registry or [total_size]: a run
    of such events returns the session as it was and logs one entry per
    passive-mode event, none for the others. *)
Theorem events_outside_batch
  {gfal2_context_t : Type}
  (gfal2_stat : gfal2_context_t -> option string -> stat_result)
  (gfal2_parse_uri : option string -> option gfal2_uri)
  (events : list gfalt_event_t)
  (data : sdn_t gfal2_context_t) (log : list log_entry) :
  forallb (fun e => outside_batch (stage e)) events = true ->
  exists new,
    deliver gfal2_stat gfal2_parse_uri events (data, log) =
      Returns (data, (log ++ new)%list)
    /\ List.length new = List.length (filter (fun e => is_pasv (stage e)) events).
Proof.
  revert log; induction events as [|[stg d] events IH]; intros log H.
  - exists []. split; [cbn [deliver]; now rewrite app_nil_r | reflexivity].
  - cbn [forallb stage] in H. apply andb_prop in H as [Hs H].
    destruct stg; try discriminate Hs.
    + destruct (sdn_dest_pasv_returns d log) as [entry E].
      destruct (IH (log ++ [entry])%list H) as (new & R & L).
      exists (entry :: new). split.
      * cbn [deliver]. unfold sdn_event_listener at 1. cbn [stage description].
        rewrite E. cbn [bind]. rewrite R. now rewrite <- app_assoc.
      * cbn [filter stage is_pasv List.length]. now rewrite L.
    + destruct (IH log H) as (new & R & L).
      exists new. split; [exact R | exact L].
Qed.

Lemma events_outside_batch_witness :
  let events :=
    [ Scenario.event (GFAL_EVENT_OTHER "PREPARE:ENTER") "";
      Scenario.event GFAL_GRIDFTP_PASV_STAGE_QUARK "ftpnode1:[192.168.1.10]:20000";
      Scenario.event GFAL_GRIDFTP_PASV_STAGE_QUARK "not-a-valid-descriptor" ] in
  forallb (fun e => outside_batch (stage e)) events = true
  /\ exists new,
       deliver Scenario.stat Scenario.parse_uri events Scenario.start =
         Returns (sdn_create_data tt, ([] ++ new)%list)
       /\ List.length new = 2.
Proof.
  intros events.
  assert (H : forallb (fun e => outside_batch (stage e)) events = true) by reflexivity.
  split; [exact H|].
  exact (events_outside_batch Scenario.stat Scenario.parse_uri events
           (sdn_create_data tt) [] H).
Defined.

Lemma listener_item_returns
  {gfal2_context_t : Type}
  (gfal2_stat : gfal2_context_t -> option string -> stat_result)
  (gfal2_parse_uri : option string -> option gfal2_uri)
  (e : gfalt_event_t) (st st' : session gfal2_context_t) :
  sdn_event_listener gfal2_stat gfal2_parse_uri e st = Returns st' ->
  stage e = GFAL_EVENT_LIST_ITEM ->
  description e <> "".
Proof.
  destruct e as [stg d], st as [data log]. cbn [stage description].
  intros H ->. unfold sdn_event_listener in H. cbn [stage description] in H.
  destruct (sdn_create_pair_cases d) as [[_ U] | [(Hne & _) | (i & Hi & _)]].
  - rewrite U in H. discriminate H.
  - exact Hne.
  - intros ->. discriminate Hi.
Qed.

(** X10: over a run of events on each of which the listener returns, the
    registry keeps its pairs well formed: when every pair held before the
    run has a source, with no separator in it, so has every pair held after
    it.  Such a run has no item with the empty description: on that one
    [sdn_create_pair] reads past the vector, nothing is promised about the
    pair it makes, and the property says nothing of the run. *)
Theorem registry_holds_parsed_pairs
  {gfal2_context_t : Type}
  (gfal2_stat : gfal2_context_t -> option string -> stat_result)
  (gfal2_parse_uri : option string -> option gfal2_uri)
  (events : list gfalt_event_t)
  (data data' : sdn_t gfal2_context_t) (log log' : list log_entry) :
  deliver gfal2_stat gfal2_parse_uri events (data, log) = Returns (data', log') ->
  Forall parsed_pair (pairs data) ->
  Forall parsed_pair (pairs data')
  /\ Forall (fun e => stage e = GFAL_EVENT_LIST_ITEM -> description e <> "") events.
Proof.
  revert data log; induction events as [|e events IH]; intros data log; cbn [deliver].
  - intros [= <- <-] Hall. split; [exact Hall | constructor].
  - destruct (sdn_event_listener gfal2_stat gfal2_parse_uri e (data, log))
      as [[data1 log1]|] eqn:E; cbn [bind]; [|discriminate].
    intros H Hall.
    assert (Hall1 : Forall parsed_pair (pairs data1)).
    { pose proof E as E'.
      apply listener_step in E' as (_ & _ & [-> | [-> | (item & Hi & ->)]]).
      - constructor.
      - exact Hall.
      - apply Forall_app. split; [exact Hall|].
        constructor; [|constructor].
        now apply (sdn_create_pair_parsed (description e)). }
    destruct (IH _ _ H Hall1) as [Hafter Hitems].
    split; [exact Hafter|].
    constructor; [|exact Hitems].
    exact (listener_item_returns gfal2_stat gfal2_parse_uri e _ _ E).
Qed.

Lemma registry_holds_parsed_pairs_witness :
  let data' : sdn_t unit :=
    {| pairs := [ {| source := Some "fileA"; destination := Some "fileB" |};
                  {| source := Some "fileC"; destination := Some "fileD" |} ];
       context := tt; total_size := 300 |} in
  let log' := [(G_LOG_LEVEL_WARNING, Between_hosts (Some "fileA") (Some "fileB") 2 300)] in
  deliver Scenario.stat Scenario.parse_uri Scenario.two_files Scenario.start =
    Returns (data', log')
  /\ Forall parsed_pair (pairs (fst Scenario.start))
  /\ Forall parsed_pair (pairs data').
Proof.
  intros data' log'.
  assert (H : deliver Scenario.stat Scenario.parse_uri Scenario.two_files Scenario.start =
              Returns (data', log')) by reflexivity.
  assert (H0 : Forall parsed_pair (pairs (fst Scenario.start))) by constructor.
  split; [exact H|]. split; [exact H0|].
  exact (proj1 (registry_holds_parsed_pairs Scenario.stat Scenario.parse_uri
                  Scenario.two_files _ data' _ log' H H0)).
Defined.

(* ================================================================== *)
(** * Further properties of the descriptor parser and the size pass     *)
(* ================================================================== *)

Section MoreStrings.

Lemma app_inv_length_s (a a' b b' : string) :
  a ++ b = a' ++ b' -> String.length a = String.length a' -> a = a' /\ b = b'.
Proof.
  revert a'; induction a as [|x a IH]; intros [|x' a'] E L;
    cbn in E, L; try discriminate L.
  - now split.
  - injection E as -> E. injection L as L.
    destruct (IH _ E L) as [-> ->]. now split.
Qed.

Lemma first_chars_nonempty (n : nat) (s : string) :
  0 < n -> s <> "" -> first_chars n s <> "".
Proof.
  intros Hn Hs. destruct n as [|n]; [lia|].
  destruct s as [|c s]; [congruence|]. discriminate.
Qed.

End MoreStrings.

(** X11: on every description [sdn_dest_pasv] returns, with no store past
    a field, and adds exactly one entry to the log.  The entry is the
    critical one that names the description exactly when the description
    holds no text of the form [<host>:[<ip>]:<port>]; otherwise it is an
    endpoint at warning level whose host and address are not empty, are
    made of the characters of their classes and are shorter than the 256
    and 64 bytes of their fields. *)
Theorem sdn_dest_pasv_one_entry (d : string) (log : list log_entry) :
  exists level message,
    sdn_dest_pasv d log = Returns (log ++ [(level, message)])%list
    /\ ((~ contains_pasv_descriptor d
         /\ level = G_LOG_LEVEL_CRITICAL /\ message = Could_not_be_parsed d)
        \/ (contains_pasv_descriptor d
            /\ level = G_LOG_LEVEL_WARNING
            /\ exists ip port host,
                 message = Got_endpoint ip port host
                 /\ host <> "" /\ String.length host < sizeof_host
                 /\ all_in host_class host = true
                 /\ ip <> "" /\ String.length ip < sizeof_ip
                 /\ all_in ip_class ip = true)).
Proof.
  destruct (regexec d) as [matches|] eqn:R.
  - pose proof R as R'. unfold regexec in R'.
    apply regexec_from_found in R'
      as (before & host & ip & port & rest & At & _ & -> & _).
    exists G_LOG_LEVEL_WARNING,
      (Got_endpoint (first_chars (sizeof_ip - 1) ip) (atoi (port ++ rest))
         (first_chars (sizeof_host - 1) host)).
    split; [now apply (sdn_dest_pasv_found before host ip port rest d log At)|].
    right. split; [now exists before, host, ip, port, rest|].
    split; [reflexivity|].
    destruct At as [_ (Hh & Ah & Hi & Ai & _)].
    eexists _, _, _. split; [reflexivity|].
    unfold sizeof_host, sizeof_ip. rewrite !length_first_chars.
    repeat split; try lia;
      auto using all_in_first_chars; apply first_chars_nonempty; (lia || assumption).
  - exists G_LOG_LEVEL_CRITICAL, (Could_not_be_parsed d).
    split; [unfold sdn_dest_pasv; now rewrite R|].
    left. split; [now apply regexec_none_iff | now split].
Qed.

(** X12: when a description holds several descriptors, the endpoint logged
    is that of the leftmost one: for a descriptor at which no other starts
    further left, followed by no digit, with a host of at most 255
    characters, an address of at most 63 and a port that denotes an [int],
    the entry logged carries that host, that address and that port, whatever
    text surrounds the descriptor. *)
Theorem pasv_logs_leftmost_descriptor
  (before host ip port after d : string) (log : list log_entry) :
  descriptor_at before host ip port after d ->
  (forall before' host' ip' port' after',
     descriptor_at before' host' ip' port' after' d ->
     String.length before <= String.length before') ->
  span port_class after = 0 ->
  String.length host < sizeof_host ->
  String.length ip < sizeof_ip ->
  (decimal_value port <= INT_MAX)%Z ->
  sdn_dest_pasv d log =
    Returns (log ++ [(G_LOG_LEVEL_WARNING,
                      Got_endpoint ip (decimal_value port) host)])%list.
Proof.
  intros At Hleft Hafter Lh Li Lp.
  destruct (regexec d) as [matches|] eqn:R.
  2:{ apply regexec_none_iff in R. exfalso; apply R.
      now exists before, host, ip, port, after. }
  pose proof R as R'. unfold regexec in R'.
  apply regexec_from_found in R'
    as (before' & host' & ip' & port' & rest' & At' & Sp' & -> & L).
  cbn [Nat.add] in R.
  pose proof (Hleft _ _ _ _ _ At') as Hle.
  destruct At as [E G], At' as [E' G'].
  assert (M : match_here (offset d (String.length before)) =
              Some (String.length host, String.length ip,
                    String.length port + span port_class after))
    by (rewrite E, offset_app; now apply match_here_complete).
  assert (Hb : String.length before' = String.length before).
  { destruct (Nat.eq_dec (String.length before') (String.length before)) as [|Hne];
      [assumption|].
    assert (Hlt : String.length before < String.length before') by lia.
    rewrite (L _ Hlt) in M. discriminate M. }
  assert (M' : match_here (offset d (String.length before')) =
               Some (String.length host', String.length ip',
                     String.length port' + span port_class rest'))
    by (rewrite E', offset_app; now apply match_here_complete).
  rewrite Hb, M in M'. injection M' as Hh Hi Hp.
  rewrite Hafter, Sp', !Nat.add_0_r in Hp.
  pose proof E' as E2. rewrite E in E2.
  apply app_inv_length_s in E2 as [<- E2]; [|now symmetry].
  apply app_inv_length_s in E2 as [<- E2]; [|assumption].
  cbn [append] in E2. injection E2 as E2.
  apply app_inv_length_s in E2 as [<- E2]; [|assumption].
  cbn [append] in E2. injection E2 as E2.
  apply app_inv_length_s in E2 as [<- <-]; [|assumption].
  rewrite (sdn_dest_pasv_found before host ip port after d log (conj E G) R).
  destruct G as (_ & _ & _ & _ & Hpne & Ap).
  rewrite (atoi_decimal port after Hpne Ap Hafter Lp).
  unfold sizeof_host, sizeof_ip in *.
  rewrite !first_chars_all by lia.
  reflexivity.
Qed.

Lemma pasv_logs_leftmost_descriptor_witness :
  let d := "see a:[1]:2 or b:[3]:4" in
  descriptor_at "see " "a" "1" "2" " or b:[3]:4" d
  /\ descriptor_at "see a:[1]:2 or " "b" "3" "4" "" d
  /\ sdn_dest_pasv d [] = Returns [(G_LOG_LEVEL_WARNING, Got_endpoint "1" 2 "a")].
Proof.
  intros d.
  assert (A1 : descriptor_at "see " "a" "1" "2" " or b:[3]:4" d)
    by (split; [reflexivity | repeat split; (discriminate || reflexivity)]).
  assert (A2 : descriptor_at "see a:[1]:2 or " "b" "3" "4" "" d)
    by (split; [reflexivity | repeat split; (discriminate || reflexivity)]).
  assert (R : regexec d = Some (group_offsets 4 1 1 1)) by reflexivity.
  split; [exact A1|]. split; [exact A2|].
  refine (pasv_logs_leftmost_descriptor "see " "a" "1" "2" " or b:[3]:4" d []
            A1 _ eq_refl _ _ _).
  - intros before' host' ip' port' after' At'.
    exact (regexec_leftmost d 4 1 1 1 before' host' ip' port' after' R At').
  - unfold sizeof_host. cbn. lia.
  - unfold sizeof_ip. cbn. lia.
  - vm_compute. discriminate.
Defined.

Section PassOrder.

Context {gfal2_context_t : Type}.
Variable gfal2_stat : gfal2_context_t -> option string -> stat_result.

Lemma sum_of_sizes_permutation (ctx : gfal2_context_t) (ps qs : list pair_t) :
  Permutation ps qs ->
  sum_of_sizes gfal2_stat ctx ps = sum_of_sizes gfal2_stat ctx qs.
Proof.
  induction 1 as [|p ps qs _ IH|p q ps|ps qs rs _ IH1 _ IH2].
  - reflexivity.
  - rewrite !sum_of_sizes_cons. now rewrite IH.
  - rewrite !sum_of_sizes_cons. lia.
  - congruence.
Qed.

Lemma failed_pairs_permutation (ctx : gfal2_context_t) (ps qs : list pair_t) :
  Permutation ps qs ->
  Permutation (failed_pairs gfal2_stat ctx ps) (failed_pairs gfal2_stat ctx qs).
Proof.
  unfold failed_pairs.
  induction 1 as [|p ps qs _ IH|p q ps|ps qs rs _ IH1 _ IH2]; cbn [filter].
  - constructor.
  - destruct (lookup_fails gfal2_stat ctx p); [now constructor | exact IH].
  - destruct (lookup_fails gfal2_stat ctx p), (lookup_fails gfal2_stat ctx q);
      try apply Permutation_refl. constructor.
  - now transitivity (filter (lookup_fails gfal2_stat ctx) qs).
Qed.

End PassOrder.

(** X13: the total of a size pass does not depend on the order of the
    pairs: two registries that hold the same pairs in different orders, with
    every running total within [off_t] in both orders, get the same
    [total_size], and the passes log the same error entries, each in the
    order of its registry. *)
Theorem size_pass_any_order
  {gfal2_context_t : Type}
  (gfal2_stat : gfal2_context_t -> option string -> stat_result)
  (ctx : gfal2_context_t) (ps qs : list pair_t) (total total' : Z)
  (log : list log_entry) :
  Permutation ps qs ->
  running_totals_fit gfal2_stat ctx ps ->
  running_totals_fit gfal2_stat ctx qs ->
  let after_ps :=
    calculate_the_size gfal2_stat
      ({| pairs := ps; context := ctx; total_size := total |}, log) in
  let after_qs :=
    calculate_the_size gfal2_stat
      ({| pairs := qs; context := ctx; total_size := total' |}, log) in
  total_size (fst after_ps) = total_size (fst after_qs)
  /\ exists new_ps new_qs,
       snd after_ps = (log ++ new_ps)%list
       /\ snd after_qs = (log ++ new_qs)%list
       /\ Permutation new_ps new_qs.
Proof.
  intros HP Hps Hqs. cbv zeta.
  rewrite !calculate_the_size_wraps.
  unfold with_total_size. cbn [fst snd pairs context total_size].
  rewrite (running_totals_fit_wrap gfal2_stat ctx ps Hps).
  rewrite (running_totals_fit_wrap gfal2_stat ctx qs Hqs).
  split; [now apply sum_of_sizes_permutation|].
  eexists _, _. split; [reflexivity|]. split; [reflexivity|].
  apply Permutation_map. now apply failed_pairs_permutation.
Qed.

Lemma size_pass_any_order_witness :
  let a := {| source := Some "fileA"; destination := Some "fileB" |} in
  let x := {| source := Some "fileX"; destination := None |} in
  let c := {| source := Some "fileC"; destination := Some "fileD" |} in
  Permutation [a; x; c] [c; a; x]
  /\ running_totals_fit Scenario.stat tt [a; x; c]
  /\ running_totals_fit Scenario.stat tt [c; a; x]
  /\ total_size (fst (calculate_the_size Scenario.stat
                        ({| pairs := [a; x; c]; context := tt; total_size := 1 |}, [])))
     = total_size (fst (calculate_the_size Scenario.stat
                          ({| pairs := [c; a; x]; context := tt; total_size := 2 |}, []))).
Proof.
  intros a x c.
  assert (HP : Permutation [a; x; c] [c; a; x]).
  { apply Permutation_sym. apply (Permutation_cons_app [a; x] [] c).
    rewrite app_nil_r. apply Permutation_refl. }
  assert (F1 : running_totals_fit Scenario.stat tt [a; x; c])
    by (intros [|[|[|[|n]]]]; vm_compute; split; discriminate).
  assert (F2 : running_totals_fit Scenario.stat tt [c; a; x])
    by (intros [|[|[|[|n]]]]; vm_compute; split; discriminate).
  split; [exact HP|]. split; [exact F1|]. split; [exact F2|].
  exact (proj1 (size_pass_any_order Scenario.stat tt [a; x; c] [c; a; x] 1 2 []
                  HP F1 F2)).
Defined.
